(** * FrameMover: the React shell (src/App.tsx) and the move engine it drives

    The repository's visible code is the graphical shell [App.tsx]; the
    scan/match/dedup/move engine lives in the Rust backend.  This development
    embeds the shell's state and handlers as they are written, and models the
    engine components the shell talks to from the specification. *)

From Stdlib Require Import ZArith QArith Ascii String List Lia.
From stdpp Require Import base tactics option list strings pretty gmap.

Open Scope Z_scope.

(** ** JavaScript strings

    A JavaScript string is a sequence of UTF-16 code units.  [String.prototype.trim]
    and [===] work on code units, so the shell's strings are lists of code
    units (each a number below 2^16). *)

Module Js.

Definition jsstring := list N.

(** A literal made of ASCII characters only. *)
Definition lit (s : string) : jsstring :=
  map N_of_ascii (list_ascii_of_string s).

(** ECMAScript WhiteSpace and LineTerminator code points: what [trim] strips. *)
Definition is_white_space (c : N) : bool :=
  ((c =? 0x09) || (c =? 0x0A) || (c =? 0x0B) || (c =? 0x0C) || (c =? 0x0D)
   || (c =? 0x20) || (c =? 0xA0) || (c =? 0x1680)
   || ((0x2000 <=? c) && (c <=? 0x200A))
   || (c =? 0x2028) || (c =? 0x2029) || (c =? 0x202F) || (c =? 0x205F)
   || (c =? 0x3000) || (c =? 0xFEFF))%N.

Fixpoint trim_start (s : jsstring) : jsstring :=
  match s with
  | c :: s' => if is_white_space c then trim_start s' else s
  | [] => []
  end.

Definition trim_end (s : jsstring) : jsstring := rev (trim_start (rev s)).

(** [s.trim()] *)
Definition trim (s : jsstring) : jsstring := trim_end (trim_start s).

(** The string starts, or ends, with white space. *)
Definition starts_ws (s : jsstring) : bool :=
  match s with
  | c :: _ => is_white_space c
  | [] => false
  end.

Definition ends_ws (s : jsstring) : bool := starts_ws (rev s).

(** Truthiness of a string: only the empty string is falsy. *)
Definition truthy (s : jsstring) : bool :=
  match s with [] => false | _ :: _ => true end.

(** Truthiness of [string | null]. *)
Definition truthy_opt (s : option jsstring) : bool :=
  match s with Some s => truthy s | None => false end.

(** [a === b] on strings. *)
Definition strict_eq (a b : jsstring) : bool := bool_decide (a = b).

(** [Array.prototype.slice(start)] with one argument: a negative [start]
    counts from the end, and both ends are clamped to the array. *)
Definition slice_from {A} (start : Z) (l : list A) : list A :=
  let len := Z.of_nat (length l) in
  let k := if start <? 0 then Z.max (len + start) 0 else Z.min start len in
  drop (Z.to_nat k) l.

(** Template-literal rendering of an integer-valued number: its decimal
    digits.  This is what JavaScript prints for the integers a number holds
    exactly (up to 2^53 in absolute value); beyond them JavaScript prints the
    digits of the nearest double, and an exponent from 1e21 on. *)
Definition num_to_string (n : Z) : jsstring := lit (pretty n).

End Js.

(** ** The shell: state, setters and handlers of [App()] in src/App.tsx *)

Module App.
Import Js.

(** [interface ProgressEvent] (lines 6-15).  The counters are integer-valued
    numbers, [percent] any rational. *)
Record ProgressEvent := {
  phase : jsstring;
  currentFile : option jsstring;
  scanned : Z;
  matched : Z;
  moved : Z;
  skippedDuplicates : Z;
  errors : Z;
  percent : Q;
}.

(** The [useState] cells of the component (lines 18-35 and 120). *)
Record State := {
  sourcePath : jsstring;
  destPath : jsstring;
  suffixInput : jsstring;
  dryRun : bool;
  verbose : bool;
  running : bool;
  progress : ProgressEvent;
  logLines : list jsstring;
  error : option jsstring;
  dragOver : bool;
}.

Definition initial_progress : ProgressEvent :=
  {| phase := lit "idle"; currentFile := None; scanned := 0; matched := 0;
     moved := 0; skippedDuplicates := 0; errors := 0; percent := 0%Q |}.

Definition initial : State :=
  {| sourcePath := []; destPath := []; suffixInput := []; dryRun := false;
     verbose := false; running := false; progress := initial_progress;
     logLines := []; error := None; dragOver := false |}.

(** A call of one of the state setters.  [SetLogLines] takes the functional
    updater the code passes ([prev => ...]). *)
Inductive Update :=
| SetSourcePath (s : jsstring)
| SetDestPath (s : jsstring)
| SetSuffixInput (s : jsstring)
| SetDryRun (b : bool)
| SetVerbose (b : bool)
| SetRunning (b : bool)
| SetProgress (p : ProgressEvent)
| SetLogLines (f : list jsstring → list jsstring)
| SetError (e : option jsstring)
| SetDragOver (b : bool).

Definition apply_update (st : State) (u : Update) : State :=
  match u with
  | SetSourcePath s =>
      {| sourcePath := s; destPath := destPath st; suffixInput := suffixInput st;
         dryRun := dryRun st; verbose := verbose st; running := running st;
         progress := progress st; logLines := logLines st; error := error st;
         dragOver := dragOver st |}
  | SetDestPath s =>
      {| sourcePath := sourcePath st; destPath := s; suffixInput := suffixInput st;
         dryRun := dryRun st; verbose := verbose st; running := running st;
         progress := progress st; logLines := logLines st; error := error st;
         dragOver := dragOver st |}
  | SetSuffixInput s =>
      {| sourcePath := sourcePath st; destPath := destPath st; suffixInput := s;
         dryRun := dryRun st; verbose := verbose st; running := running st;
         progress := progress st; logLines := logLines st; error := error st;
         dragOver := dragOver st |}
  | SetDryRun b =>
      {| sourcePath := sourcePath st; destPath := destPath st;
         suffixInput := suffixInput st; dryRun := b; verbose := verbose st;
         running := running st; progress := progress st; logLines := logLines st;
         error := error st; dragOver := dragOver st |}
  | SetVerbose b =>
      {| sourcePath := sourcePath st; destPath := destPath st;
         suffixInput := suffixInput st; dryRun := dryRun st; verbose := b;
         running := running st; progress := progress st; logLines := logLines st;
         error := error st; dragOver := dragOver st |}
  | SetRunning b =>
      {| sourcePath := sourcePath st; destPath := destPath st;
         suffixInput := suffixInput st; dryRun := dryRun st; verbose := verbose st;
         running := b; progress := progress st; logLines := logLines st;
         error := error st; dragOver := dragOver st |}
  | SetProgress p =>
      {| sourcePath := sourcePath st; destPath := destPath st;
         suffixInput := suffixInput st; dryRun := dryRun st; verbose := verbose st;
         running := running st; progress := p; logLines := logLines st;
         error := error st; dragOver := dragOver st |}
  | SetLogLines f =>
      {| sourcePath := sourcePath st; destPath := destPath st;
         suffixInput := suffixInput st; dryRun := dryRun st; verbose := verbose st;
         running := running st; progress := progress st; logLines := f (logLines st);
         error := error st; dragOver := dragOver st |}
  | SetError e =>
      {| sourcePath := sourcePath st; destPath := destPath st;
         suffixInput := suffixInput st; dryRun := dryRun st; verbose := verbose st;
         running := running st; progress := progress st; logLines := logLines st;
         error := e; dragOver := dragOver st |}
  | SetDragOver b =>
      {| sourcePath := sourcePath st; destPath := destPath st;
         suffixInput := suffixInput st; dryRun := dryRun st; verbose := verbose st;
         running := running st; progress := progress st; logLines := logLines st;
         error := error st; dragOver := b |}
  end.

(** React applies the queued setter calls of one handler in order. *)
Definition apply_updates (st : State) (us : list Update) : State :=
  fold_left apply_update us st.

(** [prev => [...prev.slice(-500), line]] (line 39). *)
Definition addLog_updater (line : jsstring) (prev : list jsstring) : list jsstring :=
  slice_from (-500) prev ++ [line].

(** [addLog] (lines 38-40). *)
Definition addLog (line : jsstring) : Update := SetLogLines (addLog_updater line).

(** The template literal of line 52. *)
Definition done_summary (p : ProgressEvent) : jsstring :=
  lit "Done. Moved: " ++ num_to_string (moved p)
  ++ lit ", Duplicates skipped: " ++ num_to_string (skippedDuplicates p)
  ++ lit ", Errors: " ++ num_to_string (errors p).

(** The [progress] listener (lines 47-58); [v] is the [verbose] the effect
    closed over. *)
Definition listener (v : bool) (payload : ProgressEvent) : list Update :=
  [SetProgress payload]
  ++ (if strict_eq (phase payload) (lit "done")
      then [SetRunning false; addLog (done_summary payload)]
      else [])
  ++ match currentFile payload with
     | Some f => if truthy f && v then [addLog f] else []
     | None => []
     end.

(** What the last branch of the listener does to the log: the current file
    of the payload is logged when the log is verbose. *)
Definition file_line (v : bool) (payload : ProgressEvent)
    (log : list jsstring) : list jsstring :=
  match currentFile payload with
  | Some f => if truthy f && v then addLog_updater f log else log
  | None => log
  end.

(** A value passed to the backend in an [invoke] argument object. *)
Inductive Value :=
| VStr (s : jsstring)
| VBool (b : bool).

(** [invoke(cmd, args)]: the command name and the argument object as an
    ordered list of its keys. *)
Record InvokeCall := {
  cmd : jsstring;
  args : list (jsstring * Value);
}.

Fixpoint arg (key : jsstring) (a : list (jsstring * Value)) : option Value :=
  match a with
  | [] => None
  | (k, v) :: a' => if strict_eq k key then Some v else arg key a'
  end.

(** [start] up to its [await] (lines 93-103): the setter calls, then the
    [invoke] it issues.  The values are those of the render the handler was
    created in. *)
Definition start (st : State) : list Update * list InvokeCall :=
  ([SetError None;
    SetLogLines (λ prev, prev ++ [lit "Starting" ++ [0x2026%N]]);
    SetRunning true],
   [{| cmd := lit "start_move";
       args := [(lit "source", VStr (sourcePath st));
                (lit "dest", VStr (destPath st));
                (lit "suffixInput", VStr (trim (suffixInput st)));
                (lit "dryRun", VBool (dryRun st));
                (lit "verbose", VBool (verbose st))] |}]).

(** The [catch] branch of [start] (lines 104-108); [e] is the rejection
    already converted by [String(e)]. *)
Definition start_catch (e : jsstring) : list Update :=
  [SetError (Some e); SetRunning false; addLog (lit "Error: " ++ e)].

(** [cancel] (lines 111-118): the [invoke], then the line logged when it
    resolves or rejects. *)
Definition cancel : list Update * list InvokeCall :=
  ([], [{| cmd := lit "cancel_move"; args := [] |}]).

Definition cancel_then : list Update := [addLog (lit "Cancel requested.")].

Definition cancel_catch (e : jsstring) : list Update :=
  [addLog (lit "Cancel error: " ++ e)].

(** [pickSource] and [pickDest] (lines 64-90): the setter call before the
    dialog opens, and those after it closes; [selected] is [Some] for a
    string result of the dialog and [None] for [null] or an array. *)
Definition pick_open : list Update := [SetError None].

Definition pickSource (selected : option jsstring) : list Update :=
  match selected with
  | Some s => if truthy s then [SetSourcePath s; addLog (lit "Source: " ++ s)] else []
  | None => []
  end.

Definition pickDest (selected : option jsstring) : list Update :=
  match selected with
  | Some s => if truthy s then [SetDestPath s; addLog (lit "Destination: " ++ s)] else []
  | None => []
  end.

(** [handleDrop] (lines 121-140); [path] is the [path] property of the first
    dropped file, when the drop carries one. *)
Definition handleDrop (path : option jsstring) : list Update :=
  SetDragOver false ::
  match path with
  | Some p => if truthy p then [SetSourcePath p; addLog (lit "Source (from drop): " ++ p)] else []
  | None => []
  end.

Definition handleDragOver : list Update := [SetDragOver true].

Definition handleDragLeave : list Update := [SetDragOver false].

(** The [disabled] attribute of the Start button (line 224). *)
Definition start_disabled (st : State) : bool :=
  running st || negb (truthy (sourcePath st)) || negb (truthy (destPath st))
  || negb (truthy (trim (suffixInput st))).

(** The [disabled] attribute of the Cancel button (line 232). *)
Definition cancel_disabled (st : State) : bool := negb (running st).

(** What can happen to the mounted component. *)
Inductive Event :=
| ClickStart
| ClickCancel
| StartRejected (e : jsstring)
| CancelResolved
| CancelRejected (e : jsstring)
| Progress (payload : ProgressEvent)
| EditSuffix (s : jsstring)
| ToggleDryRun (b : bool)
| ToggleVerbose (b : bool)
| ClickPickSource
| PickedSource (selected : option jsstring)
| ClickPickDest
| PickedDest (selected : option jsstring)
| Drop (path : option jsstring)
| DragOver
| DragLeave.

(** The setter calls and backend calls an event causes.  A disabled button
    or checkbox does not fire its handler. *)
Definition handle (st : State) (ev : Event) : list Update * list InvokeCall :=
  match ev with
  | ClickStart => if start_disabled st then ([], []) else start st
  | ClickCancel => if cancel_disabled st then ([], []) else cancel
  | StartRejected e => (start_catch e, [])
  | CancelResolved => (cancel_then, [])
  | CancelRejected e => (cancel_catch e, [])
  | Progress payload => (listener (verbose st) payload, [])
  | EditSuffix s => ([SetSuffixInput s], [])
  | ToggleDryRun b => if running st then ([], []) else ([SetDryRun b], [])
  | ToggleVerbose b => if running st then ([], []) else ([SetVerbose b], [])
  | ClickPickSource => (pick_open, [])
  | PickedSource sel => (pickSource sel, [])
  | ClickPickDest => (pick_open, [])
  | PickedDest sel => (pickDest sel, [])
  | Drop path => (handleDrop path, [])
  | DragOver => (handleDragOver, [])
  | DragLeave => (handleDragLeave, [])
  end.

(** One event: the next state and the backend calls issued. *)
Definition step (st : State) (ev : Event) : State * list InvokeCall :=
  (apply_updates st (handle st ev).1, (handle st ev).2).

(** A sequence of events from [st]: the final state and all backend calls,
    each paired with the state it was issued from. *)
Fixpoint run_events (st : State) (evs : list Event) : State * list (State * InvokeCall) :=
  match evs with
  | [] => (st, [])
  | ev :: evs' =>
      let '(st', calls) := step st ev in
      let '(st'', rest) := run_events st' evs' in
      (st'', map (pair st) calls ++ rest)
  end.

End App.

(** ** The engine the shell drives

    The Rust engine (src-tauri/src/engine/) is not among the sources at hand;
    its components are modelled from the specification, section by section. *)

Module Engine.

Open Scope nat_scope.

(** *** Files and trees *)

(** A path below a root: the directory components, then the file name. *)
Definition RelPath : Type := list string * string.

(** A regular file: its bytes, and whether it can be read in full. *)
Record File := {
  bytes : string;
  readable : bool;
}.

(** The regular files below a root directory. *)
Abbreviation Tree := (gmap (list string * string) File).

(** Modelled from the spec: the filename stem is the "filename without its
    final extension" (section 4.3); the engine's path splitting is missing.
    The name is cut at its last dot. *)
Fixpoint split_ext (name : string) : string * option string :=
  match name with
  | EmptyString => (EmptyString, None)
  | String c rest =>
      match split_ext rest with
      | (s, Some e) => (String c s, Some e)
      | (_, None) =>
          if Ascii.eqb c "."%char then (EmptyString, Some rest) else (name, None)
      end
  end.

(** Modelled from the spec: the stem and extension of a FileCandidate
    (section 3); the engine's path splitting is missing.  A leading dot alone
    starts no extension (a hidden file), as for the path type of the engine's
    language. *)
Definition split_name (name : string) : string * option string :=
  match name with
  | String "."%char rest =>
      match split_ext rest with
      | (s, Some e) => (String "."%char s, Some e)
      | (_, None) => (name, None)
      end
  | _ => split_ext name
  end.

(** The text holds no dot: what an extension looks like. *)
Fixpoint dotless (s : string) : bool :=
  match s with
  | EmptyString => true
  | String c s' => negb (Ascii.eqb c "."%char) && dotless s'
  end.

(** *** 4.1 SuffixSet *)

Inductive ErrorKind := InvalidConfiguration | IoError | CrossDeviceFallbackFailure.

Definition is_separator (c : ascii) : bool :=
  Ascii.eqb c ","%char || Ascii.is_space c.

Fixpoint split_tokens (cur : string) (s : string) : list string :=
  match s with
  | EmptyString => if decide (cur = EmptyString) then [] else [String.rev cur]
  | String c s' =>
      if is_separator c
      then (if decide (cur = EmptyString) then split_tokens EmptyString s'
            else String.rev cur :: split_tokens EmptyString s')
      else split_tokens (String c cur) s'
  end.

Fixpoint dedup (seen : list string) (l : list string) : list string :=
  match l with
  | [] => []
  | x :: l' => if decide (x ∈ seen) then dedup seen l' else x :: dedup (x :: seen) l'
  end.

(** Modelled from the spec: SuffixSet parsing (sections 3 and 4.1), the
    engine's parser is missing.  The raw text is split on commas and
    whitespace, empty tokens are discarded, duplicates collapsed; a text with
    no token is an [InvalidConfiguration]. *)
Definition parse_suffixes (raw : string) : ErrorKind + list string :=
  match dedup [] (split_tokens EmptyString raw) with
  | [] => inl InvalidConfiguration
  | sufs => inr sufs
  end.

(** *** 4.2 Scanner *)

Record FileCandidate := {
  sourceFile : string;
  relPath : RelPath;
  stem : string;
  extension : option string;
}.

Definition render_path (root : string) (p : RelPath) : string :=
  fold_left (λ acc d, acc +:+ "/" +:+ d) (p.1 ++ [p.2]) root.

Definition candidate (root : string) (p : RelPath) : FileCandidate :=
  {| sourceFile := render_path root p; relPath := p;
     stem := (split_name p.2).1; extension := (split_name p.2).2 |}.

(** Modelled from the spec: the Scanner (section 4.2), missing from the
    sources.  Every regular file of the source tree is a candidate, in a
    fixed order for a fixed tree. *)
Definition scan (root : string) (t : Tree) : list FileCandidate :=
  candidate root <$> (map_to_list t).*1.

(** *** 4.3 Matcher *)

Inductive MatchDecision :=
| ExtensionRejected
| SuffixRejected
| Accepted (suffix : string).

(** Modelled from the spec: the fixed set of image extensions (section
    4.3), missing from the sources. *)
Definition supported_extensions : list string :=
  ["jpg"; "jpeg"; "png"; "heic"; "gif"; "tiff"; "webp"]%string.

(** Modelled from the spec: the comparison of extensions is
    case-insensitive (section 4.3); letters A-Z are folded to a-z. *)
Definition to_lower_ascii (c : ascii) : ascii :=
  let n := nat_of_ascii c in
  if (65 <=? n) && (n <=? 90) then ascii_of_nat (n + 32) else c.

Fixpoint to_lower (s : string) : string :=
  match s with
  | EmptyString => EmptyString
  | String c s' => String (to_lower_ascii c) (to_lower s')
  end.

(** Modelled from the spec: the suffix check of the Matcher (section 4.3),
    an "exact trailing-character-sequence match"; the engine's own test is
    missing.  The trailing characters of [s] are exactly [suffix]. *)
Fixpoint ends_with (s suffix : string) : bool :=
  if String.eqb s suffix then true
  else match s with
       | EmptyString => false
       | String _ s' => ends_with s' suffix
       end.

(** Modelled from the spec: the Matcher (section 4.3), missing from the
    sources.  The extension is checked first, without regard to case,
    against the fixed set; then the stem must end with a member of the
    suffix set, the first such member being the one reported. *)
Definition matcher (sufs : list string) (c : FileCandidate) : MatchDecision :=
  match extension c with
  | None => ExtensionRejected
  | Some e =>
      if bool_decide (to_lower e ∈ supported_extensions)
      then match find (ends_with (stem c)) sufs with
           | Some s => Accepted s
           | None => SuffixRejected
           end
      else ExtensionRejected
  end.

Definition accepts (sufs : list string) (c : FileCandidate) : bool :=
  match matcher sufs c with
  | Accepted _ => true
  | _ => false
  end.

(** *** 4.4 ContentHasher *)

(** Modelled from the spec: the ContentHasher (section 4.4), missing from
    the sources.  Digest equality stands for byte-for-byte equality (section
    3), so the digest of a file is identified with its bytes; a file that
    cannot be read in full gives an [IoError]. *)
Definition hash (f : File) : ErrorKind + string :=
  if readable f then inr (bytes f) else inl IoError.

(** *** 4.5 DedupIndex *)

Abbreviation DedupIndex := (gmap (list string) (gmap string (list string * string))).

(** Modelled from the spec: the mapping built on the first query for a
    directory (section 4.5), missing from the sources: every regular file of
    the directory that can be hashed, by its digest. *)
Definition index_dir (dst : Tree) (dir : list string) : gmap string (list string * string) :=
  map_fold (λ p f acc,
              if decide (p.1 = dir)
              then match hash f with
                   | inr d => <[d := p]> acc
                   | inl _ => acc
                   end
              else acc) ∅ dst.

(** Modelled from the spec: [has] of the DedupIndex (section 4.5), missing
    from the sources.  The first query for a directory lists and hashes the
    files it holds; later queries use the mapping kept in memory. *)
Definition has (idx : DedupIndex) (dst : Tree) (dir : list string) (d : string)
  : option RelPath * DedupIndex :=
  let m := match idx !! dir with
           | Some m => m
           | None => index_dir dst dir
           end in
  (m !! d, <[dir := m]> idx).

(** Modelled from the spec: the in-memory update after a successful move
    into [dir] (section 4.5), missing from the sources. *)
Definition index_add (idx : DedupIndex) (dir : list string) (d : string) (p : RelPath)
  : DedupIndex :=
  <[dir := <[d := p]> (default ∅ (idx !! dir))]> idx.

(** *** 4.6 CollisionResolver *)

(** Modelled from the spec: the alternate names of the CollisionResolver
    (section 4.6), missing from the sources: the name with [-k] inserted
    immediately before the extension. *)
Definition numbered (p : RelPath) (k : nat) : RelPath :=
  (p.1,
   (split_name p.2).1 +:+ "-" +:+ pretty k
   +:+ match (split_name p.2).2 with
       | Some e => "." +:+ e
       | None => EmptyString
       end).

Definition occupied (dst : Tree) (p : RelPath) : bool :=
  bool_decide (is_Some (dst !! p)).

(** Modelled from the spec: "incrementing until an unused path is found"
    (section 4.6), missing from the sources: the search [-k], [-(k+1)], ...
    for an unused path, at most [fuel] tries. *)
Fixpoint first_unused (fuel : nat) (dst : Tree) (p : RelPath) (k : nat) : option RelPath :=
  match fuel with
  | O => None
  | S fuel' =>
      if occupied dst (numbered p k) then first_unused fuel' dst p (S k)
      else Some (numbered p k)
  end.

(** Modelled from the spec: the CollisionResolver (section 4.6), missing
    from the sources.  A free desired path is returned unchanged; otherwise
    the suffixes [-1], [-2], ... are tried in turn.  A tree of [n] files
    occupies at most [n] of them, so [n + 1] tries are enough. *)
Definition resolve (dst : Tree) (desired : RelPath) : option RelPath :=
  if occupied dst desired then first_unused (S (size dst)) dst desired 1
  else Some desired.

(** *** 4.7 Mover *)

(** Modelled from the spec: the Mover (section 4.7), missing from the
    sources.  A rename takes the file out of the source tree and puts it at
    the destination path; it fails when the source file is gone. *)
Definition move (src dst : Tree) (from to : RelPath) : ErrorKind + (Tree * Tree) :=
  match src !! from with
  | Some f => inr (delete from src, <[to := f]> dst)
  | None => inl IoError
  end.

(** *** 3 RunState, snapshots, outcomes *)

Inductive Phase := Scanning | Matching | Hashing | Moving | Done | Cancelled.

Inductive MoveOutcome :=
| Moved (finalPath : RelPath)
| SkippedDuplicate (existingPath : RelPath)
| Error (kind : ErrorKind) (message : string).

Record RunState := {
  phase : Phase;
  currentFile : option string;
  scanned : N;
  matched : N;
  moved : N;
  skippedDuplicates : N;
  errors : N;
}.

(** The progress snapshot of section 6: the run state and the estimate. *)
Record Snapshot := {
  state : RunState;
  percent : N;
}.

(** Modelled from the spec: the percent estimate (section 4.8) is "deferred
    to 100% only at done". *)
Definition snapshot (rs : RunState) : Snapshot :=
  {| state := rs;
     percent := match phase rs with Done => 100%N | _ => 0%N end |}.

Definition initial_state : RunState :=
  {| phase := Scanning; currentFile := None; scanned := 0; matched := 0;
     moved := 0; skippedDuplicates := 0; errors := 0 |}.

(** *** 4.8 Orchestrator *)

(** What the worker owns during a run: the two trees, the index, the run
    state, and what it has recorded and emitted so far. *)
Record Orchestrator := {
  src : Tree;
  dst : Tree;
  index : DedupIndex;
  rs : RunState;
  outcomes : list (FileCandidate * MoveOutcome);
  emitted : list Snapshot;
  moverCalls : list (RelPath * RelPath);
}.

Definition with_rs (o : Orchestrator) (r : RunState) : Orchestrator :=
  {| src := src o; dst := dst o; index := index o; rs := r;
     outcomes := outcomes o; emitted := emitted o; moverCalls := moverCalls o |}.

Definition with_index (o : Orchestrator) (idx : DedupIndex) : Orchestrator :=
  {| src := src o; dst := dst o; index := idx; rs := rs o;
     outcomes := outcomes o; emitted := emitted o; moverCalls := moverCalls o |}.

Definition with_trees (o : Orchestrator) (s d : Tree) : Orchestrator :=
  {| src := s; dst := d; index := index o; rs := rs o;
     outcomes := outcomes o; emitted := emitted o; moverCalls := moverCalls o |}.

Definition with_outcome (o : Orchestrator) (c : FileCandidate) (out : MoveOutcome)
  : Orchestrator :=
  {| src := src o; dst := dst o; index := index o; rs := rs o;
     outcomes := outcomes o ++ [(c, out)]; emitted := emitted o;
     moverCalls := moverCalls o |}.

Definition with_call (o : Orchestrator) (from to : RelPath) : Orchestrator :=
  {| src := src o; dst := dst o; index := index o; rs := rs o;
     outcomes := outcomes o; emitted := emitted o;
     moverCalls := moverCalls o ++ [(from, to)] |}.

Definition emit (o : Orchestrator) : Orchestrator :=
  {| src := src o; dst := dst o; index := index o; rs := rs o;
     outcomes := outcomes o; emitted := emitted o ++ [snapshot (rs o)];
     moverCalls := moverCalls o |}.

Definition enter (ph : Phase) (r : RunState) : RunState :=
  {| phase := ph; currentFile := currentFile r; scanned := scanned r;
     matched := matched r; moved := moved r;
     skippedDuplicates := skippedDuplicates r; errors := errors r |}.

Definition next_candidate (c : FileCandidate) (r : RunState) : RunState :=
  {| phase := Matching; currentFile := Some (sourceFile c);
     scanned := (scanned r + 1)%N; matched := matched r; moved := moved r;
     skippedDuplicates := skippedDuplicates r; errors := errors r |}.

Definition count_matched (r : RunState) : RunState :=
  {| phase := Hashing; currentFile := currentFile r; scanned := scanned r;
     matched := (matched r + 1)%N; moved := moved r;
     skippedDuplicates := skippedDuplicates r; errors := errors r |}.

Definition count_moved (r : RunState) : RunState :=
  {| phase := phase r; currentFile := currentFile r; scanned := scanned r;
     matched := matched r; moved := (moved r + 1)%N;
     skippedDuplicates := skippedDuplicates r; errors := errors r |}.

Definition count_skipped (r : RunState) : RunState :=
  {| phase := phase r; currentFile := currentFile r; scanned := scanned r;
     matched := matched r; moved := moved r;
     skippedDuplicates := (skippedDuplicates r + 1)%N; errors := errors r |}.

Definition count_error (r : RunState) : RunState :=
  {| phase := phase r; currentFile := currentFile r; scanned := scanned r;
     matched := matched r; moved := moved r;
     skippedDuplicates := skippedDuplicates r; errors := (errors r + 1)%N |}.

Definition failed (o : Orchestrator) (c : FileCandidate) (k : ErrorKind) (msg : string)
  : Orchestrator :=
  with_outcome (with_rs o (count_error (rs o))) c (Error k msg).

Definition skipped (o : Orchestrator) (c : FileCandidate) (existing : RelPath)
  : Orchestrator :=
  with_outcome (with_rs o (count_skipped (rs o))) c (SkippedDuplicate existing).

(** A move that succeeded, or was simulated: counted, recorded, and its
    digest added to the index of the directory it went to. *)
Definition succeeded (o : Orchestrator) (c : FileCandidate) (d : string) (final : RelPath)
  : Orchestrator :=
  with_outcome
    (with_index (with_rs o (count_moved (rs o)))
                (index_add (index o) final.1 d final))
    c (Moved final).

(** Modelled from the spec: the move step of the Orchestrator (section
    4.8), missing from the sources.  For an accepted candidate with digest
    [d] and no duplicate at the destination: the final path, then the Mover,
    unless the run is a dry run. *)
Definition move_step (dryRun : bool) (o : Orchestrator) (c : FileCandidate) (d : string)
  : Orchestrator :=
  let o := with_rs o (enter Moving (rs o)) in
  match resolve (dst o) (relPath c) with
  | None => failed o c IoError "no unused destination name"
  | Some final =>
      if dryRun then succeeded o c d final
      else
        let o := with_call o (relPath c) final in
        match move (src o) (dst o) (relPath c) final with
        | inr (s', d') => succeeded (with_trees o s' d') c d final
        | inl k => failed o c k "move failed"
        end
  end.

(** Modelled from the spec: the hash and dedup steps of the Orchestrator
    (section 4.8), missing from the sources. *)
Definition hash_step (dryRun : bool) (o : Orchestrator) (c : FileCandidate) : Orchestrator :=
  match src o !! relPath c with
  | None => failed o c IoError "source file is gone"
  | Some f =>
      match hash f with
      | inl k => failed o c k "source file cannot be read"
      | inr d =>
          let '(hit, idx) := has (index o) (dst o) (relPath c).1 d in
          let o := with_index o idx in
          match hit with
          | Some existing => skipped o c existing
          | None => move_step dryRun o c d
          end
      end
  end.

(** Modelled from the spec: the per-candidate transition rules of the
    Orchestrator (section 4.8), missing from the sources.  The mirrored
    destination path of a candidate is its source-relative path in the
    destination tree.  A snapshot is emitted after every candidate. *)
Definition process (dryRun : bool) (sufs : list string) (o : Orchestrator) (c : FileCandidate)
  : Orchestrator :=
  let o := with_rs o (next_candidate c (rs o)) in
  emit
    match matcher sufs c with
    | Accepted _ => hash_step dryRun (with_rs o (count_matched (rs o))) c
    | ExtensionRejected | SuffixRejected => o
    end.

(** Modelled from the spec: the terminal transitions of the Orchestrator
    (section 4.8), missing from the sources: the phase, no current file, and
    the final snapshot. *)
Definition finish (ph : Phase) (o : Orchestrator) : Orchestrator :=
  emit (with_rs o {| phase := ph; currentFile := None; scanned := scanned (rs o);
                     matched := matched (rs o); moved := moved (rs o);
                     skippedDuplicates := skippedDuplicates (rs o);
                     errors := errors (rs o) |}).

(** Modelled from the spec: the CancellationToken (section 3), set at most
    once from outside and read between candidates.  [Some n] when the flag is
    found set at the check before candidate number [n] (counted from 0) and
    at every later check, [None] when it is never set during the run. *)
Definition observed (cancelAt : option nat) (i : nat) : bool :=
  match cancelAt with
  | Some n => bool_decide (n ≤ i)
  | None => false
  end.

(** Modelled from the spec: the Orchestrator loop (section 4.8), missing
    from the sources.  The flag is checked before each candidate; the scanner
    running out ends the run in [Done]. *)
Fixpoint run_loop (dryRun : bool) (sufs : list string) (cancelAt : option nat)
    (i : nat) (cands : list FileCandidate) (o : Orchestrator) : Orchestrator :=
  match cands with
  | [] => finish Done o
  | c :: cands' =>
      if observed cancelAt i then finish Cancelled o
      else run_loop dryRun sufs cancelAt (S i) cands' (process dryRun sufs o c)
  end.

(** The worker's state once the candidates [cands] have been processed. *)
Definition after (dryRun : bool) (sufs : list string) (cands : list FileCandidate)
    (o : Orchestrator) : Orchestrator :=
  fold_left (process dryRun sufs) cands o.

(** The run invocation of section 6. *)
Record Params := {
  source : string;
  dest : string;
  suffixes : string;
  dryRun : bool;
  verbose : bool;
}.

(** The directories a run can be pointed at, each with the regular files
    below it.  Distinct roots are taken not to lie inside one another. *)
Abbreviation World := (gmap string (gmap (list string * string) File)).

Definition start_of (s d : Tree) : Orchestrator :=
  {| src := s; dst := d; index := ∅; rs := initial_state; outcomes := [];
     emitted := []; moverCalls := [] |}.

(** Modelled from the spec: run start (sections 4.8 and 7), missing from
    the sources.  An empty suffix set, equal source and destination, or a
    missing directory is an [InvalidConfiguration] and the run never starts;
    otherwise the loop runs over the scanner's candidates, and the trees it
    ends with are the world's new contents. *)
Definition run (p : Params) (cancelAt : option nat) (w : World)
  : ErrorKind + (World * Orchestrator) :=
  match parse_suffixes (suffixes p) with
  | inl k => inl k
  | inr sufs =>
      if decide (source p = dest p) then inl InvalidConfiguration
      else
        match w !! source p, w !! dest p with
        | Some s, Some d =>
            let o := run_loop (dryRun p) sufs cancelAt 0 (scan (source p) s) (start_of s d) in
            inr (<[source p := src o]> (<[dest p := dst o]> w), o)
        | _, _ => inl InvalidConfiguration
        end
  end.

(** *** 6 Cancellation invocation *)

(** The backend's handle on the active run, if any: the run's
    CancellationToken, set or not. *)
Record Backend := {
  active : option bool;
}.

(** Modelled from the spec: the cancellation invocation (section 6),
    missing from the sources.  It takes no parameter and sets the token of
    the active run. *)
Definition cancel_move (b : Backend) : Backend :=
  {| active := (λ _, true) <$> active b |}.

End Engine.

(** ** Sample inputs

    Concrete states, trees and runs on which the properties below are
    exercised. *)

Module Samples.

Import Js App.

Definition done_payload : ProgressEvent :=
  {| phase := lit "done"; currentFile := None; scanned := 3; matched := 2;
     moved := 1; skippedDuplicates := 1; errors := 0; percent := 100%Q |}.

Definition running_state : State :=
  {| sourcePath := lit "/photos"; destPath := lit "/selected";
     suffixInput := lit " 7612"; dryRun := false; verbose := false;
     running := true; progress := initial_progress;
     logLines := [lit "Starting" ++ [0x2026%N]]; error := None;
     dragOver := false |}.

Definition cancelled_payload : ProgressEvent :=
  {| phase := lit "cancelled"; currentFile := None; scanned := 3; matched := 2;
     moved := 1; skippedDuplicates := 0; errors := 0; percent := 0%Q |}.

Definition ready_state : State :=
  {| sourcePath := lit "/photos"; destPath := lit "/selected";
     suffixInput := lit " 7612"; dryRun := true; verbose := false;
     running := false; progress := initial_progress; logLines := [];
     error := None; dragOver := false |}.

Import Engine.

Definition old_file : File := {| bytes := "old bytes"; readable := true |}.

Definition dest_one : Tree := {[ (["A"%string], "IMG_7612.jpg"%string) := old_file ]}.

Definition dest_two : Tree :=
  <[ (["A"%string], "IMG_7612-1.jpg"%string) := old_file ]> dest_one.

Definition first_file : File := {| bytes := "first"; readable := true |}.

Definition second_file : File := {| bytes := "second"; readable := true |}.

Definition two_new_files : Tree :=
  <[ (["A"%string], "IMG_7612.JPG"%string) := first_file ]>
    {[ (["A"%string], "IMG_7605.png"%string) := second_file ]}.

Definition photos_world : World :=
  <[ "/photos"%string := two_new_files ]> {[ "/selected"%string := ∅ ]}.

Definition photos_params : Params :=
  {| source := "/photos"; dest := "/selected"; suffixes := "7612, 7605";
     dryRun := false; verbose := false |}.

Definition new_file : File := {| bytes := "new content"; readable := true |}.

Definition known_file : File := {| bytes := "known content"; readable := true |}.

Definition scenario_source : Tree :=
  <[ (["A"%string], "IMG_7612.JPG"%string) := new_file ]>
    {[ (["B"%string], "IMG_7605.png"%string) := known_file ]}.

Definition scenario_dest : Tree := {[ (["B"%string], "IMG_7605.png"%string) := known_file ]}.

Definition scenario_world : World :=
  <[ "/Source"%string := scenario_source ]> {[ "/Dest"%string := scenario_dest ]}.

Definition scenario_params : Params :=
  {| source := "/Source"; dest := "/Dest"; suffixes := "7612,7605";
     dryRun := false; verbose := false |}.

Definition plain (b : string) : File := {| bytes := b; readable := true |}.

Definition dest_first : Tree := {[ (["A"%string], "IMG_7612.jpg"%string) := plain "one" ]}.

Definition dest_second : Tree := <[ (["A"%string], "IMG_7612-1.jpg"%string) := plain "two" ]> dest_first.

Definition incoming (b : string) : Tree := {[ (["A"%string], "IMG_7612.jpg"%string) := plain b ]}.

Definition first_collision : Orchestrator :=
  after false ["7612"%string] (scan "/Source" (incoming "two")) (start_of (incoming "two") dest_first).

Definition second_collision : Orchestrator :=
  after false ["7612"%string] (scan "/Source" (incoming "three")) (start_of (incoming "three") dest_second).

End Samples.

(** ** The run invocation

    The parameters a run is started with (specification, section 6), as the
    shell's [start_move] call carries them and as the command line gives
    them. *)

Module Invocation.
Import Js.

(** The five parameters of a run invocation. *)
Record RunInvocation := {
  source : jsstring;
  dest : jsstring;
  suffixes : jsstring;
  dryRun : bool;
  verbose : bool;
}.

Definition text_arg (key : jsstring) (a : list (jsstring * App.Value)) : option jsstring :=
  match App.arg key a with
  | Some (App.VStr s) => Some s
  | _ => None
  end.

Definition flag_arg (key : jsstring) (a : list (jsstring * App.Value)) : option bool :=
  match App.arg key a with
  | Some (App.VBool b) => Some b
  | _ => None
  end.

(** Modelled from the spec: the run invocation a [start_move] call amounts
    to (section 6); the declaration of the command (src-tauri/src/lib.rs) is
    missing.  The parameters are read from the keys App.tsx passes (lines
    98-102), the suffix text from [suffixInput]. *)
Definition invocation_of (call : App.InvokeCall) : option RunInvocation :=
  if strict_eq (App.cmd call) (lit "start_move")
  then
    match text_arg (lit "source") (App.args call),
          text_arg (lit "dest") (App.args call),
          text_arg (lit "suffixInput") (App.args call),
          flag_arg (lit "dryRun") (App.args call),
          flag_arg (lit "verbose") (App.args call) with
    | Some s, Some d, Some x, Some dry, Some v =>
        Some {| source := s; dest := d; suffixes := x; dryRun := dry; verbose := v |}
    | _, _, _, _, _ => None
    end
  else None.

(** The values of the command-line flags [--source], [--dest],
    [--suffixes], [--dry-run] and [--verbose]. *)
Record CommandLine := {
  flag_source : jsstring;
  flag_dest : jsstring;
  flag_suffixes : jsstring;
  flag_dry_run : bool;
  flag_verbose : bool;
}.

(** Modelled from the spec: the run invocation from the command line
    (section 6, "flags for source, destination, suffixes, dry-run,
    verbose"); the command-line entry (src-tauri/src/main.rs) is missing.
    Each flag is passed on as given, the suffixes as raw text. *)
Definition command_line (c : CommandLine) : RunInvocation :=
  {| source := flag_source c; dest := flag_dest c; suffixes := flag_suffixes c;
     dryRun := flag_dry_run c; verbose := flag_verbose c |}.

(** The command line that is given what the shell holds in [st]: the same
    two paths, the same suffix text, the same two settings. *)
Definition same_inputs (st : App.State) : CommandLine :=
  {| flag_source := App.sourcePath st; flag_dest := App.destPath st;
     flag_suffixes := App.suffixInput st; flag_dry_run := App.dryRun st;
     flag_verbose := App.verbose st |}.

End Invocation.

(** ** Event sequences

    What the statements about whole sequences of events need. *)

Module Traces.
Import Js App.

(** The payload of the last [progress] event of a sequence, if it has one. *)
Fixpoint last_payload (evs : list Event) : option ProgressEvent :=
  match evs with
  | [] => None
  | ev :: evs' =>
      match last_payload evs' with
      | Some p => Some p
      | None => match ev with Progress p => Some p | _ => None end
      end
  end.

(** Whether the last drag event of a sequence was a drag-over, if the
    sequence has a drag event. *)
Fixpoint last_drag (evs : list Event) : option bool :=
  match evs with
  | [] => None
  | ev :: evs' =>
      match last_drag evs' with
      | Some b => Some b
      | None =>
          match ev with
          | DragOver => Some true
          | DragLeave | Drop _ => Some false
          | _ => None
          end
      end
  end.

(** Browse for a source folder 501 times, choose a destination, type a
    suffix, press Start. *)
Definition fill_log_then_start : list Event :=
  replicate 501 (PickedSource (Some (lit "/photos")))
  ++ [PickedDest (Some (lit "/selected")); EditSuffix (lit "7612"); ClickStart].

(** The call a click on an enabled Start button issues from [st]. *)
Definition start_call_of (st : State) : InvokeCall :=
  {| cmd := lit "start_move";
     args := [(lit "source", VStr (sourcePath st));
              (lit "dest", VStr (destPath st));
              (lit "suffixInput", VStr (trim (suffixInput st)));
              (lit "dryRun", VBool (dryRun st));
              (lit "verbose", VBool (verbose st))] |}.


(** The events that clear the running flag: a progress event of phase
    "done" and a rejection of [start_move]. *)
Definition clears_running (ev : Event) : bool :=
  match ev with
  | Progress payload => strict_eq (phase payload) (lit "done")
  | StartRejected _ => true
  | _ => false
  end.

End Traces.

(** * Properties of the shell *)

Module ShellFacts.
Import Js App Samples.

(** ** [trim] *)

Lemma trim_start_split s :
  ∃ pre, s = pre ++ trim_start s
         ∧ Forall (λ c, is_white_space c = true) pre
         ∧ starts_ws (trim_start s) = false.
Proof.
  induction s as [|c s IH]; simpl.
  - exists []. auto.
  - destruct (is_white_space c) eqn:Hc.
    + destruct IH as (pre & Hs & Hpre & Hhd).
      exists (c :: pre). split; [simpl; congruence|]. split; [constructor|]; auto.
    + exists []. simpl. auto.
Qed.

Lemma trim_start_fixed s : starts_ws s = false → trim_start s = s.
Proof. destruct s as [|c s]; simpl; [done|]. by intros ->. Qed.

Lemma trim_end_split s :
  ∃ post, s = trim_end s ++ post
          ∧ Forall (λ c, is_white_space c = true) post
          ∧ ends_ws (trim_end s) = false.
Proof.
  unfold trim_end, ends_ws.
  destruct (trim_start_split (rev s)) as (pre & Hs & Hpre & Hhd).
  exists (rev pre). split; [|split].
  - rewrite <- rev_app_distr, <- Hs. by rewrite rev_involutive.
  - by apply Forall_rev.
  - by rewrite rev_involutive.
Qed.

Lemma trim_end_fixed s : ends_ws s = false → trim_end s = s.
Proof.
  unfold trim_end, ends_ws. intros H.
  rewrite trim_start_fixed by done. apply rev_involutive.
Qed.

Lemma trim_end_keeps_head s : starts_ws s = false → starts_ws (trim_end s) = false.
Proof.
  intros Hs. destruct (trim_end_split s) as (post & Heq & _ & _).
  destruct (trim_end s) as [|c t]; [done|].
  rewrite Heq in Hs. exact Hs.
Qed.

(** [trim] removes a run of white space at each end and nothing else, and
    what is left neither starts nor ends with white space. *)
Lemma trim_split s :
  ∃ pre post, s = pre ++ trim s ++ post
              ∧ Forall (λ c, is_white_space c = true) pre
              ∧ Forall (λ c, is_white_space c = true) post
              ∧ starts_ws (trim s) = false ∧ ends_ws (trim s) = false.
Proof.
  unfold trim.
  destruct (trim_start_split s) as (pre & Hs & Hpre & Hhd).
  destruct (trim_end_split (trim_start s)) as (post & Ht & Hpost & Hlast).
  exists pre, post. repeat split; auto.
  - by rewrite <- Ht.
  - by apply trim_end_keeps_head.
Qed.

Lemma trim_fixed_iff s : trim s = s ↔ starts_ws s = false ∧ ends_ws s = false.
Proof.
  split.
  - intros H. destruct (trim_split s) as (_ & _ & _ & _ & _ & H1 & H2).
    rewrite H in H1, H2. auto.
  - intros [H1 H2]. unfold trim. rewrite trim_start_fixed by done.
    by apply trim_end_fixed.
Qed.

Lemma not_truthy_iff (s : jsstring) : negb (truthy s) = true ↔ s = [].
Proof. destruct s; simpl; split; congruence. Qed.

Lemma strict_eq_iff (a b : jsstring) : strict_eq a b = true ↔ a = b.
Proof. unfold strict_eq. apply bool_decide_eq_true. Qed.

(** ** [addLog] *)

Lemma slice_last_500 {A} (l : list A) :
  slice_from (-500) l = drop (length l - 500)%nat l.
Proof.
  unfold slice_from. replace (-500 <? 0) with true by done.
  f_equal. lia.
Qed.

(** C10.  After an [addLog] call the log holds at most 501 lines: the
    previous list cut down to its last 500 entries, in their order, followed
    by the new line. *)
Theorem addLog_at_most_501 :
  ∀ (st : State) (line : jsstring),
    (length (logLines (apply_update st (addLog line))) ≤ 501)%nat
    ∧ logLines (apply_update st (addLog line))
      = drop (length (logLines st) - 500)%nat (logLines st) ++ [line]
    ∧ ∃ older kept,
        logLines st = older ++ kept
        ∧ length kept = Nat.min 500 (length (logLines st))
        ∧ logLines (apply_update st (addLog line)) = kept ++ [line].
Proof.
  intros st line. unfold addLog, apply_update. cbn [logLines].
  unfold addLog_updater. rewrite slice_last_500. split; [|split].
  - rewrite length_app, length_drop. cbn [length]. lia.
  - reflexivity.
  - exists (take (length (logLines st) - 500)%nat (logLines st)),
           (drop (length (logLines st) - 500)%nat (logLines st)).
    split; [by rewrite take_drop|]. split; [|done].
    rewrite length_drop. lia.
Qed.

(** ** The [progress] listener *)

Lemma apply_updates_app st us vs :
  apply_updates st (us ++ vs) = apply_updates (apply_updates st us) vs.
Proof. unfold apply_updates. apply fold_left_app. Qed.

Lemma file_line_updates st payload v :
  running (apply_updates st
             match currentFile payload with
             | Some f => if truthy f && v then [addLog f] else []
             | None => []
             end) = running st
  ∧ logLines (apply_updates st
                match currentFile payload with
                | Some f => if truthy f && v then [addLog f] else []
                | None => []
                end) = file_line v payload (logLines st).
Proof.
  unfold file_line. destruct (currentFile payload) as [f|]; [|done].
  by destruct (truthy f && v).
Qed.

(** C8.  On a progress event the listener clears the running flag and logs
    the completion summary exactly when the phase is "done"; for any other
    phase, "cancelled" among them, the flag keeps its value and the only line
    that can be logged is the current file of a verbose log. *)
Theorem listener_done_iff :
  ∀ (st : State) (payload : ProgressEvent),
    (In (SetRunning false) (listener (verbose st) payload)
     ↔ phase payload = lit "done")
    ∧ (phase payload = lit "done" →
       running (step st (Progress payload)).1 = false
       ∧ logLines (step st (Progress payload)).1
         = file_line (verbose st) payload
             (addLog_updater (done_summary payload) (logLines st)))
    ∧ (phase payload ≠ lit "done" →
       running (step st (Progress payload)).1 = running st
       ∧ logLines (step st (Progress payload)).1
         = file_line (verbose st) payload (logLines st))
    ∧ (phase payload = lit "cancelled" →
       running (step st (Progress payload)).1 = running st).
Proof.
  intros st payload.
  assert (Hother : phase payload ≠ lit "done" →
       running (step st (Progress payload)).1 = running st
       ∧ logLines (step st (Progress payload)).1
         = file_line (verbose st) payload (logLines st)).
  { intros Hne. unfold step, handle, listener; simpl fst.
    destruct (strict_eq (phase payload) (lit "done")) eqn:E.
    { apply strict_eq_iff in E. contradiction. }
    rewrite app_nil_l.
    change ([SetProgress payload] ++ ?t) with (SetProgress payload :: t).
    unfold apply_updates at 1 2; simpl fold_left.
    apply (file_line_updates (apply_update st (SetProgress payload))). }
  split; [|split; [|split]]; auto.
  - unfold listener. destruct (strict_eq (phase payload) (lit "done")) eqn:E.
    + apply strict_eq_iff in E. split; [done|]. intros _. simpl. auto.
    + split; [|intros H; apply strict_eq_iff in H; congruence].
      simpl. intros [H|H]; [discriminate|].
      destruct (currentFile payload) as [f|]; [|done].
      destruct (truthy f && verbose st); simpl in H; [|done].
      destruct H as [H|[]]. discriminate.
  - intros Hd. unfold step, handle, listener; simpl fst.
    apply strict_eq_iff in Hd. rewrite Hd.
    change ([SetProgress payload] ++ [?a; ?b] ++ ?t)
      with ([SetProgress payload; a; b] ++ t).
    rewrite apply_updates_app.
    apply (file_line_updates
             (apply_updates st [SetProgress payload; SetRunning false;
                                addLog (done_summary payload)])).
  - intros Hc. apply Hother. rewrite Hc. discriminate.
Qed.

Lemma listener_done_iff_witness :
  running (step running_state (Progress done_payload)).1 = false
  ∧ logLines (step running_state (Progress done_payload)).1
    = [lit "Starting" ++ [0x2026%N];
       lit "Done. Moved: 1, Duplicates skipped: 1, Errors: 0"].
Proof.
  destruct (listener_done_iff running_state done_payload) as (_ & Hd & _).
  destruct (Hd eq_refl) as [Hr Hl]. split; [exact Hr|].
  rewrite Hl. vm_compute. reflexivity.
Defined.

(** ** The Start button *)

Lemma start_disabled_iff st :
  start_disabled st = true
  ↔ running st = true ∨ sourcePath st = [] ∨ destPath st = []
    ∨ trim (suffixInput st) = [].
Proof.
  unfold start_disabled. rewrite !orb_true_iff, !not_truthy_iff. tauto.
Qed.

(** The Start button reaches the backend only from an enabled state. *)
Lemma click_start_calls st call :
  In call (handle st ClickStart).2 →
  start_disabled st = false
  ∧ call = {| cmd := lit "start_move";
              args := [(lit "source", VStr (sourcePath st));
                       (lit "dest", VStr (destPath st));
                       (lit "suffixInput", VStr (trim (suffixInput st)));
                       (lit "dryRun", VBool (dryRun st));
                       (lit "verbose", VBool (verbose st))] |}.
Proof.
  unfold handle. destruct (start_disabled st) eqn:E; simpl; [tauto|].
  intros [<-|[]]. auto.
Qed.

Lemma start_disabled_false st :
  start_disabled st = false →
  running st = false ∧ sourcePath st ≠ [] ∧ destPath st ≠ []
  ∧ trim (suffixInput st) ≠ [].
Proof.
  intros E. pose proof (start_disabled_iff st) as H. rewrite E in H.
  destruct (running st); [exfalso; apply diff_false_true, H; auto|].
  repeat split; intros Heq; apply diff_false_true, H; auto.
Qed.

(** Only the two buttons reach the backend, and Start is the only one that
    calls [start_move]. *)
Lemma start_move_only_from_button st ev call :
  In call (handle st ev).2 → cmd call = lit "start_move" → ev = ClickStart.
Proof.
  destruct ev; try reflexivity; unfold handle;
    try (destruct (running st); simpl; tauto); try (simpl; tauto).
  destruct (cancel_disabled st); simpl; [tauto|].
  intros [<-|[]]. discriminate.
Qed.

Lemma run_events_calls st evs s call :
  In (s, call) (run_events st evs).2 →
  ∃ ev, In call (handle s ev).2.
Proof.
  revert st. induction evs as [|ev evs IH]; intros st; simpl; [tauto|].
  unfold step. destruct (run_events _ evs) as [st'' rest] eqn:E. simpl.
  rewrite in_app_iff, in_map_iff. intros [(c & Hc & Hin)|Hin].
  - inversion Hc; subst. eauto.
  - apply (IH (apply_updates st (handle st ev).1)). by rewrite E.
Qed.

(** C9.  The Start button is disabled exactly when a run is marked running,
    a folder is missing, or the suffix text is blank after trimming; so
    every [start_move] the shell issues, along any sequence of events, leaves
    from a state that is not running, with a non-empty trimmed suffix text,
    and the click itself marks the run as running and disables the button. *)
Theorem start_button_guard :
  ∀ (st : State),
    (start_disabled st = true
     ↔ running st = true ∨ sourcePath st = [] ∨ destPath st = []
       ∨ trim (suffixInput st) = [])
    ∧ (∀ call, In call (handle st ClickStart).2 →
         cmd call = lit "start_move"
         ∧ running st = false
         ∧ arg (lit "suffixInput") (args call) = Some (VStr (trim (suffixInput st)))
         ∧ trim (suffixInput st) ≠ []
         ∧ running (step st ClickStart).1 = true
         ∧ (handle (step st ClickStart).1 ClickStart).2 = [])
    ∧ (running st = true → (handle st ClickStart).2 = [])
    ∧ (∀ evs s call,
         In (s, call) (run_events st evs).2 →
         cmd call = lit "start_move" →
         running s = false
         ∧ arg (lit "suffixInput") (args call) = Some (VStr (trim (suffixInput s)))
         ∧ trim (suffixInput s) ≠ []).
Proof.
  intros st. split; [apply start_disabled_iff|]. split; [|split].
  - intros call Hin.
    destruct (click_start_calls _ _ Hin) as [Hen ->].
    destruct (start_disabled_false _ Hen) as (Hr & _ & _ & Ht).
    repeat split; auto.
    + unfold step, handle. rewrite Hen. reflexivity.
    + unfold step. cbn [fst]. unfold handle at 2. rewrite Hen.
      unfold handle, start_disabled. reflexivity.
  - intros Hr. unfold handle, start_disabled. by rewrite Hr.
  - intros evs s call Hin Hcmd.
    destruct (run_events_calls _ _ _ _ Hin) as [ev Hev].
    pose proof (start_move_only_from_button _ _ _ Hev Hcmd) as ->.
    destruct (click_start_calls _ _ Hev) as [Hen ->].
    destruct (start_disabled_false _ Hen) as (Hr & _ & _ & Ht).
    auto.
Qed.

Lemma start_button_guard_witness :
  running ready_state = false
  ∧ trim (suffixInput ready_state) ≠ []
  ∧ running (step ready_state ClickStart).1 = true
  ∧ (handle (step ready_state ClickStart).1 ClickStart).2 = [].
Proof.
  destruct (start_button_guard ready_state) as (_ & Hcall & _ & _).
  destruct (Hcall {| cmd := lit "start_move";
                     args := [(lit "source", VStr (lit "/photos"));
                              (lit "dest", VStr (lit "/selected"));
                              (lit "suffixInput", VStr (lit "7612"));
                              (lit "dryRun", VBool true);
                              (lit "verbose", VBool false)] |})
    as (_ & Hr & _ & Hne & Hrun & Hagain).
  { left. reflexivity. }
  repeat split; auto.
Defined.

(** ** The Start action *)

(** The Start action issues one [start_move] call whose five arguments are the source and destination paths, the suffix
    text with the white space at its two ends removed (under the key
    [suffixInput]), and the two toggles; the forwarded suffix text is the
    text as entered exactly when that text neither starts nor ends with
    white space. *)
Theorem start_forwards_trimmed_suffix :
  ∀ (st : State),
    (start st).2
    = [{| cmd := lit "start_move";
          args := [(lit "source", VStr (sourcePath st));
                   (lit "dest", VStr (destPath st));
                   (lit "suffixInput", VStr (trim (suffixInput st)));
                   (lit "dryRun", VBool (dryRun st));
                   (lit "verbose", VBool (verbose st))] |}]
    ∧ (∃ pre post,
         suffixInput st = pre ++ trim (suffixInput st) ++ post
         ∧ Forall (λ c, is_white_space c = true) pre
         ∧ Forall (λ c, is_white_space c = true) post
         ∧ starts_ws (trim (suffixInput st)) = false
         ∧ ends_ws (trim (suffixInput st)) = false)
    ∧ (trim (suffixInput st) = suffixInput st
       ↔ starts_ws (suffixInput st) = false ∧ ends_ws (suffixInput st) = false).
Proof.
  intros st. split; [reflexivity|]. split.
  - apply trim_split.
  - apply trim_fixed_iff.
Qed.

(** C7, as the code has it.  Given the same inputs, the run invocation from
    the shell and the one from the command line carry the same parameters:
    the same source, the same destination, the same dry-run and verbose
    settings, and the suffixes, which the command line passes as the raw
    text, while the Start action forwards the text entered with the white
    space at its two ends removed; the two invocations are identical exactly
    when the text entered neither starts nor ends with white space. *)
Theorem start_and_command_line_parameters :
  ∀ (st : State),
    ∃ call p,
      (start st).2 = [call]
      ∧ Invocation.invocation_of call = Some p
      ∧ Invocation.source p
        = Invocation.source (Invocation.command_line (Invocation.same_inputs st))
      ∧ Invocation.dest p
        = Invocation.dest (Invocation.command_line (Invocation.same_inputs st))
      ∧ Invocation.dryRun p
        = Invocation.dryRun (Invocation.command_line (Invocation.same_inputs st))
      ∧ Invocation.verbose p
        = Invocation.verbose (Invocation.command_line (Invocation.same_inputs st))
      ∧ Invocation.suffixes (Invocation.command_line (Invocation.same_inputs st))
        = suffixInput st
      ∧ Invocation.suffixes p
        = trim (Invocation.suffixes (Invocation.command_line (Invocation.same_inputs st)))
      ∧ (∃ pre post,
           suffixInput st = pre ++ Invocation.suffixes p ++ post
           ∧ Forall (λ c, is_white_space c = true) pre
           ∧ Forall (λ c, is_white_space c = true) post
           ∧ starts_ws (Invocation.suffixes p) = false
           ∧ ends_ws (Invocation.suffixes p) = false)
      ∧ (p = Invocation.command_line (Invocation.same_inputs st)
         ↔ starts_ws (suffixInput st) = false ∧ ends_ws (suffixInput st) = false).
Proof.
  intros st.
  exists {| cmd := lit "start_move";
            args := [(lit "source", VStr (sourcePath st));
                     (lit "dest", VStr (destPath st));
                     (lit "suffixInput", VStr (trim (suffixInput st)));
                     (lit "dryRun", VBool (dryRun st));
                     (lit "verbose", VBool (verbose st))] |},
         {| Invocation.source := sourcePath st; Invocation.dest := destPath st;
            Invocation.suffixes := trim (suffixInput st);
            Invocation.dryRun := dryRun st; Invocation.verbose := verbose st |}.
  split; [reflexivity|]. split; [reflexivity|].
  do 6 (split; [reflexivity|]).
  split; [apply trim_split|].
  rewrite <- trim_fixed_iff. unfold Invocation.command_line, Invocation.same_inputs.
  cbn [Invocation.flag_source Invocation.flag_dest Invocation.flag_suffixes
       Invocation.flag_dry_run Invocation.flag_verbose].
  split.
  - intros H. by injection H.
  - intros H. by rewrite H.
Qed.

Lemma start_and_command_line_parameters_witness :
  ∃ call p,
    (start ready_state).2 = [call]
    ∧ Invocation.invocation_of call = Some p
    ∧ Invocation.source p = lit "/photos"
    ∧ Invocation.dest p = lit "/selected"
    ∧ Invocation.suffixes p = lit "7612"
    ∧ Invocation.suffixes (Invocation.command_line (Invocation.same_inputs ready_state))
      = lit " 7612".
Proof.
  destruct (start_and_command_line_parameters ready_state)
    as (call & p & Hcall & Hp & Hs & Hd & _ & _ & Hraw & Hsuf & _).
  exists call, p. rewrite Hs, Hd, Hsuf, Hraw.
  repeat split; try assumption; reflexivity.
Defined.

(** C7, as stated, fails: with a leading blank in the suffix field the
    Start button forwards a text that differs from the text entered. *)
Lemma start_suffix_not_raw :
  suffixInput ready_state = lit " 7612"
  ∧ (∃ call, (handle ready_state ClickStart).2 = [call]
             ∧ arg (lit "suffixInput") (args call) = Some (VStr (lit "7612")))
  ∧ lit "7612" ≠ suffixInput ready_state.
Proof.
  split; [reflexivity|]. split.
  - eexists. split; reflexivity.
  - discriminate.
Qed.

(** ** Worked examples *)

Example trim_examples :
  trim (lit "  7612, 7608 ") = lit "7612, 7608"
  ∧ trim ([0x0A; 0x09; 0xA0; 0x3000]%N ++ lit "7612" ++ [0x0D; 0x0A; 0xFEFF]%N) = lit "7612"
  ∧ trim (lit "   ") = []
  ∧ trim (lit "76 12") = lit "76 12".
Proof. repeat split. Qed.

Example slice_examples :
  slice_from (-2) [1; 2; 3] = [2; 3]
  ∧ slice_from (-5) [1; 2; 3] = [1; 2; 3]
  ∧ slice_from 1 [1; 2; 3] = [2; 3]
  ∧ slice_from 7 [1; 2; 3] = [].
Proof. repeat split. Qed.

(** A log that has grown past the bound is cut back by the next [addLog]. *)
Example addLog_cuts_long_log :
  length (addLog_updater (lit "new") (replicate 600 (lit "old"))) = 501%nat
  ∧ last (addLog_updater (lit "new") (replicate 600 (lit "old"))) = Some (lit "new")
  ∧ length (addLog_updater (lit "new") (replicate 3 (lit "old"))) = 4%nat.
Proof. split; [|split]; vm_compute; reflexivity. Qed.

(** A "cancelled" event leaves the shell marked as running, so the Start
    button stays disabled. *)
Example cancelled_keeps_running :
  running (step running_state (Progress cancelled_payload)).1 = true
  ∧ logLines (step running_state (Progress cancelled_payload)).1 = logLines running_state
  ∧ start_disabled (step running_state (Progress cancelled_payload)).1 = true.
Proof. split; [|split]; reflexivity. Qed.

End ShellFacts.

(** * Properties of the engine model *)

Module EngineFacts.
Import Engine Samples.

Open Scope nat_scope.

(** ** Strings *)

Lemma str_app_nil (s : string) : EmptyString +:+ s = s.
Proof. reflexivity. Qed.

Lemma str_app_cons (c : ascii) (s t : string) :
  String c s +:+ t = String c (s +:+ t).
Proof. reflexivity. Qed.

(** ** File names *)

Lemma split_ext_dotless (s : string) : dotless s = true → split_ext s = (s, None).
Proof.
  induction s as [|c s IH]; [done|].
  cbn [dotless split_ext]. intros [Hc Hs]%andb_true_iff.
  rewrite (IH Hs). by destruct (Ascii.eqb c "."%char).
Qed.

Lemma split_ext_join (st ext : string) :
  dotless ext = true → split_ext (st +:+ "." +:+ ext) = (st, Some ext).
Proof.
  intros Hext. induction st as [|c st IH].
  - rewrite str_app_nil, str_app_cons, str_app_nil. cbn [split_ext].
    by rewrite (split_ext_dotless _ Hext).
  - rewrite str_app_cons. cbn [split_ext]. by rewrite IH.
Qed.

Lemma split_name_join (st ext : string) :
  st ≠ EmptyString → dotless ext = true →
  split_name (st +:+ "." +:+ ext) = (st, Some ext).
Proof.
  intros Hst Hext. destruct st as [|c st]; [done|].
  rewrite str_app_cons.
  destruct (Ascii.eqb_spec c "."%char) as [->|Hc].
  - cbn [split_name]. by rewrite split_ext_join.
  - rewrite <- str_app_cons.
    transitivity (split_ext (String c st +:+ "." +:+ ext)); [|by apply split_ext_join].
    rewrite str_app_cons.
    destruct c as [[] [] [] [] [] [] [] []]; try reflexivity. done.
Qed.

(** The stem and extension of a candidate are those of its file name. *)
Lemma candidate_stem_extension (root : string) (dir : list string) (st ext : string) :
  st ≠ EmptyString → dotless ext = true →
  stem (candidate root (dir, st +:+ "." +:+ ext)) = st
  ∧ extension (candidate root (dir, st +:+ "." +:+ ext)) = Some ext.
Proof.
  intros Hst Hext. unfold candidate. cbn [stem extension snd].
  by rewrite split_name_join.
Qed.

(** ** Matcher *)

Lemma ends_with_iff (s suffix : string) :
  ends_with s suffix = true ↔ ∃ pre, s = pre +:+ suffix.
Proof.
  induction s as [|c s IH]; cbn [ends_with].
  - destruct (String.eqb_spec EmptyString suffix) as [<-|Hne].
    + split; [|done]. by exists EmptyString.
    + split; [done|]. intros [pre Hpre].
      destruct pre; [by rewrite str_app_nil in Hpre|].
      rewrite str_app_cons in Hpre. discriminate.
  - destruct (String.eqb_spec (String c s) suffix) as [<-|Hne].
    + split; [|done]. by exists EmptyString.
    + rewrite IH. split.
      * intros [pre ->]. by exists (String c pre).
      * intros [pre Hpre]. destruct pre as [|c' pre].
        { by rewrite str_app_nil in Hpre. }
        { rewrite str_app_cons in Hpre. injection Hpre as -> ->. by exists pre. }
Qed.

Lemma supported_are_lower x : x ∈ supported_extensions → to_lower x = x.
Proof.
  unfold supported_extensions. rewrite !elem_of_cons, elem_of_nil.
  intros H. repeat (destruct H as [->|H]; [reflexivity|]). destruct H.
Qed.

Lemma extension_supported_iff (e : string) :
  to_lower e ∈ supported_extensions
  ↔ ∃ x, x ∈ supported_extensions ∧ to_lower e = to_lower x.
Proof.
  split.
  - intros H. exists (to_lower e). split; [done|].
    symmetry. by apply supported_are_lower.
  - intros (x & Hx & ->). by rewrite supported_are_lower.
Qed.

Lemma find_ends_with (sufs : list string) (st : string) :
  (∃ s, find (ends_with st) sufs = Some s)
  ↔ ∃ s pre, s ∈ sufs ∧ st = pre +:+ s.
Proof.
  split.
  - intros [s Hs]. apply find_some in Hs as [Hin He].
    apply ends_with_iff in He as [pre ->].
    exists s, pre. split; [by apply list_elem_of_In|done].
  - intros (s & pre & Hin & Hst).
    destruct (find (ends_with st) sufs) as [s'|] eqn:E; [eauto|].
    exfalso. apply list_elem_of_In in Hin.
    pose proof (find_none _ _ E _ Hin) as Hf.
    assert (ends_with st s = true) by (apply ends_with_iff; eauto).
    congruence.
Qed.

Lemma accepts_iff (sufs : list string) (c : FileCandidate) :
  accepts sufs c = true
  ↔ (∃ e x, extension c = Some e ∧ x ∈ supported_extensions
            ∧ to_lower e = to_lower x)
    ∧ (∃ s pre, s ∈ sufs ∧ stem c = pre +:+ s).
Proof.
  unfold accepts, matcher. rewrite <- find_ends_with.
  destruct (extension c) as [e|].
  - destruct (bool_decide_reflect (to_lower e ∈ supported_extensions)) as [He|He].
    + apply extension_supported_iff in He as (x & Hx & Hlow).
      destruct (find (ends_with (stem c)) sufs) as [s|].
      * split; [|done]. intros _. split; eauto.
      * split; [done|]. intros [_ [s Hs]]. discriminate.
    + split; [done|]. intros [(e' & x & Heq & Hx & Hlow) _].
      injection Heq as <-.
      exfalso. apply He, extension_supported_iff. eauto.
  - split; [done|]. intros [(e' & x & Hsome & _) _]. discriminate.
Qed.

(** C2.  The Matcher accepts a candidate exactly when its extension is,
    without regard to case, one of jpg, jpeg, png, heic, gif, tiff, webp and
    its stem ends, character for character, with a member of the suffix set;
    so the stem IMG_7612 is accepted for the suffix 612 and the stem 123 for
    the suffix 23. *)
Theorem matcher_accepts_iff :
  ∀ (sufs : list string) (c : FileCandidate),
    (accepts sufs c = true
     ↔ (∃ e x, extension c = Some e ∧ x ∈ supported_extensions
               ∧ to_lower e = to_lower x)
       ∧ (∃ s pre, s ∈ sufs ∧ stem c = pre +:+ s))
    ∧ (∀ root dir st ext, st ≠ EmptyString → dotless ext = true →
         c = candidate root (dir, st +:+ "." +:+ ext) →
         stem c = st ∧ extension c = Some ext)
    ∧ (stem c = "IMG_7612"%string →
       (∃ e, extension c = Some e ∧ to_lower e ∈ supported_extensions) →
       accepts ["612"%string] c = true)
    ∧ (stem c = "123"%string →
       (∃ e, extension c = Some e ∧ to_lower e ∈ supported_extensions) →
       accepts ["23"%string] c = true).
Proof.
  intros sufs c. split; [apply accepts_iff|].
  split; [intros root dir st ext Hst Hext ->; by apply candidate_stem_extension|].
  split; intros Hstem (e & He & Hsup); apply accepts_iff; split.
  - apply extension_supported_iff in Hsup as (x & Hx & Hlow). eauto.
  - exists "612"%string, "IMG_7"%string. split; [constructor|by rewrite Hstem].
  - apply extension_supported_iff in Hsup as (x & Hx & Hlow). eauto.
  - exists "23"%string, "1"%string. split; [constructor|by rewrite Hstem].
Qed.

Lemma matcher_accepts_iff_witness :
  accepts ["612"%string] (candidate "/photos" (["A"%string], "IMG_7612.JPG"%string)) = true
  ∧ accepts ["23"%string] (candidate "/photos" ([], "123.webp"%string)) = true.
Proof.
  split.
  - apply (proj1 (proj2 (proj2 (matcher_accepts_iff [] _)))); [reflexivity|].
    exists "JPG"%string. split; [reflexivity|]. vm_compute. repeat constructor.
  - apply (proj2 (proj2 (proj2 (matcher_accepts_iff [] _)))); [reflexivity|].
    exists "webp"%string. split; [reflexivity|]. vm_compute. repeat constructor.
Defined.

(** The match is on characters, not on numeric value: a suffix with a
    leading zero does not match a stem that lacks the zero, and a file that
    is no image is rejected for its extension. *)
Example matcher_not_numeric :
  matcher ["007"%string] (candidate "/photos" ([], "IMG_7.jpg"%string)) = SuffixRejected
  ∧ matcher ["7"%string] (candidate "/photos" ([], "IMG_007.jpg"%string)) = Accepted "7"
  ∧ matcher ["7"%string] (candidate "/photos" ([], "IMG_007.txt"%string)) = ExtensionRejected
  ∧ matcher ["7"%string] (candidate "/photos" ([], "IMG_007"%string)) = ExtensionRejected.
Proof. repeat split. Qed.

(** ** CollisionResolver *)

Lemma str_length_app (s t : string) :
  String.length (s +:+ t) = String.length s + String.length t.
Proof.
  induction s as [|c s IH]; [done|].
  rewrite str_app_cons. simpl. by rewrite IH.
Qed.

Lemma str_app_inv_tail (s1 s2 t : string) : s1 +:+ t = s2 +:+ t → s1 = s2.
Proof.
  revert s2. induction s1 as [|c s1 IH]; intros [|c' s2] H; [done| | |].
  - apply (f_equal String.length) in H.
    rewrite str_app_nil, str_app_cons in H. simpl in H.
    rewrite str_length_app in H. lia.
  - apply (f_equal String.length) in H.
    rewrite str_app_nil, str_app_cons in H. simpl in H.
    rewrite str_length_app in H. lia.
  - rewrite !str_app_cons in H. injection H as -> H. f_equal. by apply IH.
Qed.

(** Different numbers give different names. *)
Lemma numbered_inj (p : RelPath) : Inj (=) (=) (numbered p).
Proof.
  intros j k H. unfold numbered in H. injection H as H.
  do 2 apply (inj (String.app _)) in H.
  apply str_app_inv_tail in H. by apply (inj pretty) in H.
Qed.

Lemma occupied_dom (dst : Tree) (p : RelPath) :
  occupied dst p = true ↔ p ∈ dom dst.
Proof. unfold occupied. by rewrite bool_decide_eq_true, elem_of_dom. Qed.

Lemma first_unused_none (fuel : nat) (dst : Tree) (p : RelPath) (k : nat) :
  first_unused fuel dst p k = None →
  ∀ j, k ≤ j < k + fuel → occupied dst (numbered p j) = true.
Proof.
  revert k. induction fuel as [|fuel IH]; intros k H j Hj; [lia|].
  simpl in H. destruct (occupied dst (numbered p k)) eqn:E; [|done].
  destruct (decide (j = k)) as [->|Hne]; [done|].
  apply (IH (S k)); [done|lia].
Qed.

Lemma first_unused_some (fuel : nat) (dst : Tree) (p : RelPath) (k : nat) (q : RelPath) :
  first_unused fuel dst p k = Some q →
  ∃ j, k ≤ j ∧ q = numbered p j ∧ occupied dst q = false
       ∧ ∀ i, k ≤ i < j → occupied dst (numbered p i) = true.
Proof.
  revert k. induction fuel as [|fuel IH]; intros k H; [done|].
  simpl in H. destruct (occupied dst (numbered p k)) eqn:E.
  - destruct (IH _ H) as (j & Hj & -> & Hfree & Hbelow).
    exists j. repeat split; [lia|done|]. intros i Hi.
    destruct (decide (i = k)) as [->|Hne]; [done|]. apply Hbelow. lia.
  - injection H as <-. exists k. repeat split; [lia|done|]. intros i Hi. lia.
Qed.

(** A tree cannot hold more numbered names than it has files. *)
Lemma numbered_not_all_occupied (dst : Tree) (p : RelPath) (k : nat) :
  ¬ ∀ j, k ≤ j < k + S (size dst) → occupied dst (numbered p j) = true.
Proof.
  intros Hall.
  assert (Hsub : list_to_set (numbered p <$> seq k (S (size dst))) ⊆ dom dst).
  { intros q. rewrite elem_of_list_to_set, list_elem_of_fmap.
    intros (j & -> & Hj). apply elem_of_seq in Hj.
    apply occupied_dom, Hall. lia. }
  apply subseteq_size in Hsub.
  rewrite size_list_to_set, length_fmap, length_seq, size_dom in Hsub.
  - lia.
  - pose proof (numbered_inj p). apply (NoDup_fmap_2 (numbered p)), NoDup_seq.
Qed.

Lemma resolve_occupied (dst : Tree) (p : RelPath) :
  occupied dst p = true →
  ∃ k, 1 ≤ k ∧ resolve dst p = Some (numbered p k)
       ∧ occupied dst (numbered p k) = false
       ∧ ∀ j, 1 ≤ j < k → occupied dst (numbered p j) = true.
Proof.
  intros Hocc. unfold resolve. rewrite Hocc.
  destruct (first_unused (S (size dst)) dst p 1) as [q|] eqn:E.
  - destruct (first_unused_some _ _ _ _ _ E) as (j & Hj & -> & Hfree & Hbelow).
    eauto.
  - exfalso. apply (numbered_not_all_occupied dst p 1).
    by apply first_unused_none.
Qed.

(** The resolver always yields a path, and the path is unused. *)
Lemma resolve_total (dst : Tree) (p : RelPath) :
  ∃ q, resolve dst p = Some q ∧ occupied dst q = false.
Proof.
  destruct (occupied dst p) eqn:E.
  - destruct (resolve_occupied dst p E) as (k & _ & Hr & Hfree & _). eauto.
  - exists p. unfold resolve. by rewrite E.
Qed.

(** C4.  A free desired path is returned unchanged.  An occupied one gives
    the path with [-k] inserted before the extension for the smallest
    [k = 1, 2, ...] whose path is unused; so a first collision on
    IMG_7612.jpg gives IMG_7612-1.jpg, and a second gives IMG_7612-2.jpg. *)
Theorem resolve_smallest_unused :
  ∀ (dst : Tree) (p : RelPath),
    (occupied dst p = false → resolve dst p = Some p)
    ∧ (occupied dst p = true →
       ∃ k, 1 ≤ k ∧ resolve dst p = Some (numbered p k)
            ∧ occupied dst (numbered p k) = false
            ∧ ∀ j, 1 ≤ j < k → occupied dst (numbered p j) = true)
    ∧ (∀ k st ext, st ≠ EmptyString → dotless ext = true →
         p.2 = st +:+ "." +:+ ext →
         numbered p k = (p.1, st +:+ "-" +:+ pretty k +:+ "." +:+ ext))
    ∧ (p.2 = "IMG_7612.jpg"%string → occupied dst p = true →
       occupied dst (p.1, "IMG_7612-1.jpg"%string) = false →
       resolve dst p = Some (p.1, "IMG_7612-1.jpg"%string))
    ∧ (p.2 = "IMG_7612.jpg"%string → occupied dst p = true →
       occupied dst (p.1, "IMG_7612-1.jpg"%string) = true →
       occupied dst (p.1, "IMG_7612-2.jpg"%string) = false →
       resolve dst p = Some (p.1, "IMG_7612-2.jpg"%string)).
Proof.
  intros dst p. split; [|split; [|split; [|split]]].
  - intros Hfree. unfold resolve. by rewrite Hfree.
  - apply resolve_occupied.
  - intros k st ext Hst Hext Hname. unfold numbered.
    by rewrite Hname, split_name_join.
  - destruct p as [dir name]. simpl. intros -> Hocc H1.
    destruct (resolve_occupied _ _ Hocc) as (k & Hk & -> & Hfree & Hbelow).
    destruct (decide (k = 1)) as [->|Hne]; [done|].
    pose proof (Hbelow 1 ltac:(lia)) as Hb.
    change (occupied dst (dir, "IMG_7612-1.jpg"%string) = true) in Hb.
    congruence.
  - destruct p as [dir name]. simpl. intros -> Hocc H1 H2.
    destruct (resolve_occupied _ _ Hocc) as (k & Hk & -> & Hfree & Hbelow).
    destruct (decide (k = 1)) as [->|Hne1].
    { change (occupied dst (dir, "IMG_7612-1.jpg"%string) = false) in Hfree.
      congruence. }
    destruct (decide (k = 2)) as [->|Hne2]; [done|].
    pose proof (Hbelow 2 ltac:(lia)) as Hb.
    change (occupied dst (dir, "IMG_7612-2.jpg"%string) = true) in Hb.
    congruence.
Qed.

Lemma resolve_smallest_unused_witness :
  resolve dest_one (["A"%string], "IMG_7612.jpg"%string)
  = Some (["A"%string], "IMG_7612-1.jpg"%string)
  ∧ resolve dest_two (["A"%string], "IMG_7612.jpg"%string)
    = Some (["A"%string], "IMG_7612-2.jpg"%string)
  ∧ resolve dest_two (["A"%string], "IMG_7613.jpg"%string)
    = Some (["A"%string], "IMG_7613.jpg"%string).
Proof.
  split; [|split].
  - apply (proj1 (proj2 (proj2 (proj2
             (resolve_smallest_unused dest_one (["A"%string], "IMG_7612.jpg"%string))))));
      reflexivity.
  - apply (proj2 (proj2 (proj2 (proj2
             (resolve_smallest_unused dest_two (["A"%string], "IMG_7612.jpg"%string))))));
      reflexivity.
  - apply (proj1 (resolve_smallest_unused dest_two (["A"%string], "IMG_7613.jpg"%string))).
    reflexivity.
Defined.

(** ** Orchestrator: termination and cancellation *)

Lemma scanned_hash_step dry o c :
  scanned (rs (hash_step dry o c)) = scanned (rs o).
Proof.
  unfold hash_step, move_step, has, failed, skipped, succeeded.
  repeat case_match; reflexivity.
Qed.

Lemma scanned_process dry sufs o c :
  scanned (rs (process dry sufs o c)) = (scanned (rs o) + 1)%N.
Proof.
  unfold process. destruct (matcher sufs c); try reflexivity.
  cbn [emit rs]. by rewrite scanned_hash_step.
Qed.

Lemma scanned_after dry sufs cands o :
  scanned (rs (after dry sufs cands o)) = (scanned (rs o) + N.of_nat (length cands))%N.
Proof.
  unfold after. revert o.
  induction cands as [|c cands IH]; intros o; cbn [fold_left length].
  - lia.
  - rewrite IH, scanned_process. lia.
Qed.

(** The loop processes the candidates in order up to the check at which the
    flag is seen, and ends there in [Cancelled]; with no flag seen it
    processes them all and ends in [Done]. *)
Lemma run_loop_after dry sufs cancelAt i cands o :
  run_loop dry sufs cancelAt i cands o
  = match cancelAt with
    | Some n =>
        if decide (n - i < length cands)
        then finish Cancelled (after dry sufs (take (n - i) cands) o)
        else finish Done (after dry sufs cands o)
    | None => finish Done (after dry sufs cands o)
    end.
Proof.
  revert i o. induction cands as [|c cands IH]; intros i o.
  - simpl. destruct cancelAt as [n|]; [|done].
    destruct (decide (n - i < 0)); [lia|done].
  - cbn [run_loop]. destruct cancelAt as [n|]; cbn [observed].
    + destruct (bool_decide_reflect (n ≤ i)) as [Hle|Hgt].
      * replace (n - i) with 0 by lia.
        destruct (decide (0 < length (c :: cands))) as [_|Hn]; [done|].
        simpl in Hn. lia.
      * rewrite IH. replace (n - i) with (S (n - S i)) by lia.
        cbn [length take].
        destruct (decide (n - S i < length cands)),
                 (decide (S (n - S i) < S (length cands))); try lia; done.
    + by rewrite IH.
Qed.

Lemma run_loop_from_start dry sufs cancelAt cands o :
  run_loop dry sufs cancelAt 0 cands o
  = match cancelAt with
    | Some n =>
        if decide (n < length cands)
        then finish Cancelled (after dry sufs (take n cands) o)
        else finish Done (after dry sufs cands o)
    | None => finish Done (after dry sufs cands o)
    end.
Proof.
  rewrite run_loop_after. destruct cancelAt as [n|]; [|done].
  by rewrite Nat.sub_0_r.
Qed.

Lemma valid_run_unfold (p : Params) (cancelAt : option nat) (w : World)
    (sufs : list string) (s d : Tree) :
  parse_suffixes (suffixes p) = inr sufs →
  source p ≠ dest p →
  w !! source p = Some s →
  w !! dest p = Some d →
  run p cancelAt w
  = inr (<[source p := src (run_loop (dryRun p) sufs cancelAt 0 (scan (source p) s) (start_of s d))]>
           (<[dest p := dst (run_loop (dryRun p) sufs cancelAt 0 (scan (source p) s) (start_of s d))]> w),
         run_loop (dryRun p) sufs cancelAt 0 (scan (source p) s) (start_of s d)).
Proof.
  intros Hsufs Hne Hs Hd. unfold run. rewrite Hsufs, Hs, Hd.
  by destruct (decide (source p = dest p)).
Qed.

(** A run that does not start fails with [InvalidConfiguration], and a run
    that starts cannot fail as a whole. *)
Lemma run_refused (p : Params) (cancelAt : option nat) (w : World) (k : ErrorKind) :
  run p cancelAt w = inl k → k = InvalidConfiguration.
Proof.
  unfold run, parse_suffixes. intros H.
  repeat case_match; congruence.
Qed.

(** C5.  A run that starts returns, in phase [Done] or [Cancelled], and the
    last snapshot it emitted is that of its final state.  When the flag is
    seen before candidate number [n], the run ends in [Cancelled] with
    exactly the trees, Mover calls and outcomes it had after the first [n]
    candidates: nothing more is moved and nothing moved is undone.  The
    shell's cancel request carries no argument, and the cancellation
    invocation changes nothing when no run is active. *)
Theorem run_ends_done_or_cancelled :
  ∀ (p : Params) (cancelAt : option nat) (w : World)
    (sufs : list string) (s d : Tree),
    parse_suffixes (suffixes p) = inr sufs →
    source p ≠ dest p →
    w !! source p = Some s →
    w !! dest p = Some d →
    ∃ o,
      run p cancelAt w
      = inr (<[source p := src o]> (<[dest p := dst o]> w), o)
      ∧ (phase (rs o) = Done ∨ phase (rs o) = Cancelled)
      ∧ last (emitted o) = Some (snapshot (rs o))
      ∧ (∀ n, cancelAt = Some n → n < length (scan (source p) s) →
           phase (rs o) = Cancelled
           ∧ scanned (rs o) = N.of_nat n
           ∧ src o = src (after (dryRun p) sufs (take n (scan (source p) s)) (start_of s d))
           ∧ dst o = dst (after (dryRun p) sufs (take n (scan (source p) s)) (start_of s d))
           ∧ moverCalls o
             = moverCalls (after (dryRun p) sufs (take n (scan (source p) s)) (start_of s d))
           ∧ outcomes o
             = outcomes (after (dryRun p) sufs (take n (scan (source p) s)) (start_of s d)))
      ∧ ((cancelAt = None ∨ ∃ n, cancelAt = Some n ∧ length (scan (source p) s) ≤ n) →
         phase (rs o) = Done
         ∧ scanned (rs o) = N.of_nat (length (scan (source p) s)))
      ∧ (∀ st call, In call (App.handle st App.ClickCancel).2 →
           call = {| App.cmd := Js.lit "cancel_move"; App.args := [] |}
           ∧ App.running st = true)
      ∧ ∀ b, active b = None → cancel_move b = b.
Proof.
  intros p cancelAt w sufs s d Hsufs Hne Hs Hd.
  eexists. split; [by apply valid_run_unfold|].
  rewrite run_loop_from_start.
  split; [|split; [|split; [|split; [|split]]]].
  - destruct cancelAt as [n|]; [|by left].
    destruct (decide (n < length (scan (source p) s))); [by right|by left].
  - destruct cancelAt as [n|]; [destruct (decide _)|];
      unfold finish, emit; cbn [emitted rs]; by rewrite last_snoc.
  - intros n -> Hn.
    destruct (decide (n < length (scan (source p) s))) as [_|]; [|lia].
    repeat split; try reflexivity.
    unfold finish, emit. cbn [rs scanned]. rewrite scanned_after.
    rewrite length_take. cbn. lia.
  - intros Hnone.
    assert (match cancelAt with
            | Some n =>
                if decide (n < length (scan (source p) s))
                then finish Cancelled (after (dryRun p) sufs (take n (scan (source p) s)) (start_of s d))
                else finish Done (after (dryRun p) sufs (scan (source p) s) (start_of s d))
            | None => finish Done (after (dryRun p) sufs (scan (source p) s) (start_of s d))
            end = finish Done (after (dryRun p) sufs (scan (source p) s) (start_of s d))) as ->.
    { destruct Hnone as [->|(n & -> & Hn)]; [done|].
      destruct (decide (n < length (scan (source p) s))); [lia|done]. }
    split; [reflexivity|].
    unfold finish, emit. cbn [rs scanned]. rewrite scanned_after. cbn. lia.
  - intros st call. unfold App.handle, App.cancel_disabled.
    destruct (App.running st); simpl; [|tauto].
    intros [<-|[]]. done.
  - intros [[b|]] Hb; [discriminate|reflexivity].
Qed.

Lemma run_ends_done_or_cancelled_witness :
  ∃ o,
    run photos_params (Some 1) photos_world
    = inr (<[ "/photos"%string := src o ]> (<[ "/selected"%string := dst o ]> photos_world), o)
    ∧ phase (rs o) = Cancelled
    ∧ scanned (rs o) = 1%N
    ∧ last (emitted o) = Some (snapshot (rs o))
    ∧ moverCalls o
      = [((["A"%string], "IMG_7612.JPG"%string), (["A"%string], "IMG_7612.JPG"%string))]
    ∧ dst o !! (["A"%string], "IMG_7612.JPG"%string) = Some first_file
    ∧ src o !! (["A"%string], "IMG_7612.JPG"%string) = None
    ∧ src o !! (["A"%string], "IMG_7605.png"%string) = Some second_file
    ∧ dst o !! (["A"%string], "IMG_7605.png"%string) = None.
Proof.
  destruct (run_ends_done_or_cancelled photos_params (Some 1) photos_world
              ["7612"; "7605"]%string two_new_files ∅)
    as (o & Hrun & _ & Hlast & Hcancel & _); [reflexivity|discriminate|reflexivity..|].
  destruct (Hcancel 1 eq_refl) as (Hph & Hsc & Hsrc & Hdst & Hcalls & _).
  { vm_compute. lia. }
  exists o. split; [exact Hrun|]. split; [exact Hph|]. split; [exact Hsc|].
  split; [exact Hlast|]. rewrite Hcalls, Hdst, Hsrc.
  split; [vm_compute; reflexivity|]. split; [vm_compute; reflexivity|].
  split; [vm_compute; reflexivity|]. split; vm_compute; reflexivity.
Defined.

(** The end-to-end scenario of the specification: a new file is moved, a
    file whose content is already at the mirrored place is skipped, and the
    run ends in [Done] without errors. *)
Example end_to_end_scenario :
  ∃ o,
    run scenario_params None scenario_world
    = inr (<[ "/Source"%string := src o ]> (<[ "/Dest"%string := dst o ]> scenario_world), o)
    ∧ rs o = {| phase := Done; currentFile := None; scanned := 2; matched := 2;
                moved := 1; skippedDuplicates := 1; errors := 0 |}
    ∧ dst o !! (["A"%string], "IMG_7612.JPG"%string) = Some new_file
    ∧ src o !! (["A"%string], "IMG_7612.JPG"%string) = None
    ∧ src o !! (["B"%string], "IMG_7605.png"%string) = Some known_file.
Proof.
  eexists. split.
  - (apply (valid_run_unfold scenario_params None scenario_world
             ["7612"; "7605"]%string scenario_source scenario_dest);
      [reflexivity|discriminate|reflexivity|reflexivity]).
  - (split; [vm_compute; reflexivity|]). (split; [vm_compute; reflexivity|]).
    (split; vm_compute; reflexivity).
Qed.

(** Collision naming through two runs: the incoming IMG_7612.jpg differs
    from the one at the destination and lands at IMG_7612-1.jpg; a second
    such file lands at IMG_7612-2.jpg. *)
Example collision_naming_scenario :
  (outcomes first_collision).*2 = [Moved (["A"%string], "IMG_7612-1.jpg"%string)]
  ∧ dst first_collision !! (["A"%string], "IMG_7612-1.jpg"%string) = Some (plain "two")
  ∧ dst first_collision !! (["A"%string], "IMG_7612.jpg"%string) = Some (plain "one")
  ∧ (outcomes second_collision).*2 = [Moved (["A"%string], "IMG_7612-2.jpg"%string)]
  ∧ dst second_collision !! (["A"%string], "IMG_7612-2.jpg"%string) = Some (plain "three").
Proof.
  (split; [vm_compute; reflexivity|]). split; [vm_compute; reflexivity|].
  split; [vm_compute; reflexivity|]. split; vm_compute; reflexivity.
Qed.

End EngineFacts.

(** * Further properties of the shell *)

Module ShellCoverage.
Import Js App Samples Traces ShellFacts.

(** ** Sequences of events *)

Lemma run_events_cons st ev evs :
  (run_events st (ev :: evs)).1 = (run_events (step st ev).1 evs).1.
Proof.
  cbn [run_events]. destruct (step st ev) as [st' calls]. cbn [fst].
  destruct (run_events st' evs) as [st'' rest]. reflexivity.
Qed.

(** What every event keeps, every sequence of events keeps. *)
Lemma run_events_keeps (P : State → Prop) :
  (∀ st ev, P st → P (step st ev).1) →
  ∀ evs st, P st → P (run_events st evs).1.
Proof.
  intros Hstep evs. induction evs as [|ev evs IH]; intros st HP; [exact HP|].
  rewrite run_events_cons. apply IH, Hstep, HP.
Qed.

(** Unfolds the handlers of an event and splits on every test they make. *)
Ltac handlers :=
  unfold step, handle, start, cancel, start_catch, cancel_then, cancel_catch,
    listener, pick_open, pickSource, pickDest, handleDrop, handleDragOver,
    handleDragLeave;
  repeat case_match; subst;
  cbn [fst snd app apply_updates fold_left apply_update addLog
       sourcePath destPath suffixInput dryRun verbose running progress
       logLines error dragOver].

(** ** The running flag *)

(** X1.  The running flag is cleared only by a progress event whose phase is
    "done" or by the rejection of [start_move], and is set only by a click on
    an enabled Start button; cancelling, browsing, dropping and editing never
    change it. *)
Theorem running_changes_only_by_start_done_rejection :
  ∀ (st : State) (ev : Event),
    (running st = true → running (step st ev).1 = false →
     (∃ payload, ev = Progress payload ∧ phase payload = lit "done")
     ∨ (∃ e, ev = StartRejected e))
    ∧ (running st = false → running (step st ev).1 = true →
       ev = ClickStart ∧ start_disabled st = false).
Proof.
  intros st ev. split; intros Hr.
  - destruct ev; handlers; intros Hr'; try congruence; eauto.
    all: left; eexists; split; [reflexivity|]; by apply strict_eq_iff.
  - destruct ev; handlers; intros Hr'; try congruence; eauto.
Qed.

Lemma running_changes_only_by_start_done_rejection_witness :
  ((∃ payload, Progress done_payload = Progress payload ∧ phase payload = lit "done")
   ∨ (∃ e, Progress done_payload = StartRejected e))
  ∧ start_disabled ready_state = false.
Proof.
  split.
  - apply (proj1 (running_changes_only_by_start_done_rejection
                    running_state (Progress done_payload))); reflexivity.
  - apply (proj2 (running_changes_only_by_start_done_rejection
                    ready_state ClickStart)); reflexivity.
Defined.

(** ** The toggles *)

Lemma toggles_frozen_step st ev :
  running st = true →
  dryRun (step st ev).1 = dryRun st ∧ verbose (step st ev).1 = verbose st.
Proof.
  intros Hr. destruct ev; handlers; try (split; reflexivity); congruence.
Qed.

(** X2.  While the shell is marked running the two checkboxes are disabled:
    along a sequence of events that each find the running flag set, the dry
    run and verbose settings stay what they were. *)
Theorem toggles_frozen_while_running :
  ∀ (st : State) (evs : list Event),
    (∀ k, (k < length evs)%nat → running (run_events st (take k evs)).1 = true) →
    dryRun (run_events st evs).1 = dryRun st
    ∧ verbose (run_events st evs).1 = verbose st.
Proof.
  intros st evs. revert st.
  induction evs as [|ev evs IH]; intros st Hrun; [split; reflexivity|].
  rewrite run_events_cons.
  destruct (toggles_frozen_step st ev) as [Hd Hv].
  { apply (Hrun 0%nat). cbn [length]. lia. }
  destruct (IH (step st ev).1) as [Hd' Hv'].
  { intros k Hk. rewrite <- run_events_cons. apply (Hrun (S k)). cbn [length]. lia. }
  split; congruence.
Qed.

Lemma toggles_frozen_while_running_witness :
  dryRun (run_events running_state
            [ToggleDryRun true; ToggleVerbose true; Progress cancelled_payload;
             ToggleDryRun true]).1 = false
  ∧ verbose (run_events running_state
               [ToggleDryRun true; ToggleVerbose true; Progress cancelled_payload;
                ToggleDryRun true]).1 = false.
Proof.
  apply (toggles_frozen_while_running running_state
           [ToggleDryRun true; ToggleVerbose true; Progress cancelled_payload;
            ToggleDryRun true]).
  intros k Hk. do 4 (destruct k as [|k]; [reflexivity|]). cbn [length] in Hk. lia.
Defined.

(** ** The folders *)

Lemma truthy_nonempty (s : jsstring) : truthy s = true → s ≠ [].
Proof. by destruct s. Qed.

Lemma folders_step st ev :
  (sourcePath (step st ev).1 = sourcePath st
   ∨ sourcePath (step st ev).1 ≠ []
     ∧ (ev = PickedSource (Some (sourcePath (step st ev).1))
        ∨ ev = Drop (Some (sourcePath (step st ev).1))))
  ∧ (destPath (step st ev).1 = destPath st
     ∨ destPath (step st ev).1 ≠ []
       ∧ ev = PickedDest (Some (destPath (step st ev).1))).
Proof.
  destruct ev; handlers; split; try (left; reflexivity);
    right; (split; [eapply truthy_nonempty; eassumption|]); auto.
Qed.

(** X3.  A chosen folder can be replaced but never cleared: the source path
    changes only to the non-empty path of a dialog result or of a drop, the
    destination path only to the non-empty path of a dialog result, so a
    path that is set stays set along any sequence of events. *)
Theorem chosen_folders_never_cleared :
  ∀ (st : State) (evs : list Event),
    (sourcePath st ≠ [] → sourcePath (run_events st evs).1 ≠ [])
    ∧ (destPath st ≠ [] → destPath (run_events st evs).1 ≠ [])
    ∧ (∀ ev, sourcePath (step st ev).1 ≠ sourcePath st →
         sourcePath (step st ev).1 ≠ []
         ∧ (ev = PickedSource (Some (sourcePath (step st ev).1))
            ∨ ev = Drop (Some (sourcePath (step st ev).1))))
    ∧ (∀ ev, destPath (step st ev).1 ≠ destPath st →
         destPath (step st ev).1 ≠ []
         ∧ ev = PickedDest (Some (destPath (step st ev).1))).
Proof.
  intros st evs. split; [|split; [|split]].
  - apply (run_events_keeps (λ s, sourcePath s ≠ [])).
    intros s ev Hs. destruct (folders_step s ev) as [[->|[Hne _]] _]; done.
  - apply (run_events_keeps (λ s, destPath s ≠ [])).
    intros s ev Hs. destruct (folders_step s ev) as [_ [->|[Hne _]]]; done.
  - intros ev Hch. destruct (folders_step st ev) as [[Heq|H] _]; [done|exact H].
  - intros ev Hch. destruct (folders_step st ev) as [_ [Heq|H]]; [done|exact H].
Qed.

Lemma chosen_folders_never_cleared_witness :
  sourcePath (run_events ready_state
                [PickedSource None; Drop None; PickedSource (Some []);
                 ClickStart; StartRejected (lit "no such folder")]).1 ≠ []
  ∧ destPath (run_events ready_state
                [PickedDest None; PickedDest (Some []); ClickStart]).1 ≠ [].
Proof.
  split.
  - apply (proj1 (chosen_folders_never_cleared ready_state _)). discriminate.
  - apply (proj1 (proj2 (chosen_folders_never_cleared ready_state _))). discriminate.
Defined.


(** ** The log *)

Lemma addLog_updater_eq (line : jsstring) (l : list jsstring) :
  addLog_updater line l = drop (length l - 500)%nat l ++ [line].
Proof. unfold addLog_updater. by rewrite slice_last_500. Qed.

Lemma addLog_updater_length (line : jsstring) (l : list jsstring) :
  (length (addLog_updater line l) ≤ 501)%nat.
Proof.
  rewrite addLog_updater_eq, length_app, length_drop. cbn [length]. lia.
Qed.

(** What bounds the log: 502 lines at any time, 501 when not running. *)
Definition log_bounded (st : State) : Prop :=
  (length (logLines st) ≤ 502)%nat
  ∧ (running st = false → (length (logLines st) ≤ 501)%nat).

Lemma addLog_updater_le_502 (line : jsstring) (l : list jsstring) :
  (length (addLog_updater line l) ≤ 502)%nat.
Proof. pose proof (addLog_updater_length line l). lia. Qed.

Lemma log_bounded_step st ev : log_bounded st → log_bounded (step st ev).1.
Proof.
  intros [H502 H501]. unfold log_bounded.
  destruct ev; handlers; (split; [|intros Hrun]);
    try apply addLog_updater_length; try apply addLog_updater_le_502;
    try assumption; try congruence; try (by apply H501).
  rewrite length_app. cbn [length].
  destruct (start_disabled_false st) as [Hr _]; [assumption|].
  specialize (H501 Hr). lia.
Qed.

(** X4.  From the initial state the log never holds more than 502 lines,
    and never more than 501 while no run is marked running; the bound 502 is
    reached, since Start appends its line without cutting the log. *)
Theorem log_never_exceeds_502 :
  (∀ (evs : list Event),
     (length (logLines (run_events initial evs).1) ≤ 502)%nat
     ∧ (running (run_events initial evs).1 = false →
        (length (logLines (run_events initial evs).1) ≤ 501)%nat))
  ∧ length (logLines (run_events initial fill_log_then_start).1) = 502%nat.
Proof.
  split.
  - intros evs. apply (run_events_keeps log_bounded).
    + apply log_bounded_step.
    + split; cbn; intros; lia.
  - vm_compute. reflexivity.
Qed.


(** The log [l'] is [l] with some of its oldest lines dropped and at most
    [k] lines added at the end. *)
Definition window (k : nat) (l l' : list jsstring) : Prop :=
  ∃ n added, l' = drop n l ++ added ∧ (length added ≤ k)%nat.

Lemma window_same k l : window k l l.
Proof. exists 0%nat, []. rewrite drop_0, app_nil_r. split; [done|cbn; lia]. Qed.

Lemma window_snoc k l l' x : window k l l' → window (S k) l (l' ++ [x]).
Proof.
  intros (n & added & -> & Hk). exists n, (added ++ [x]).
  rewrite <- app_assoc, length_app. cbn [length]. split; [done|lia].
Qed.

Lemma window_drop k l l' m : window k l l' → window k l (drop m l').
Proof.
  intros (n & added & -> & Hk).
  exists (n + m)%nat, (drop (m - length (drop n l)) added).
  rewrite skipn_app, drop_drop. split; [done|]. rewrite length_drop. lia.
Qed.

Lemma window_addLog k l l' x : window k l l' → window (S k) l (addLog_updater x l').
Proof.
  intros H. rewrite addLog_updater_eq. by apply window_snoc, window_drop.
Qed.

Lemma window_step st ev : window 2 (logLines st) (logLines (step st ev).1).
Proof.
  destruct ev; handlers;
    first [ apply window_same
          | apply window_addLog, window_addLog, window_same
          | apply (window_addLog 1), window_same
          | apply (window_snoc 1), window_same ].
Qed.

Lemma window_trans j k (l1 l2 l3 : list jsstring) :
  window j l1 l2 → window k l2 l3 → window (j + k) l1 l3.
Proof.
  intros H12 (m & added & -> & Hk).
  destruct (window_drop j l1 l2 m H12) as (n & added' & -> & Hj).
  exists n, (added' ++ added). rewrite <- app_assoc, length_app. split; [done|lia].
Qed.

(** X5.  The log is a sliding window over what was logged: an event only
    drops lines from the front and appends at most two lines at the end, so
    along any sequence of events the lines that remain keep their text and
    their order. *)
Theorem log_is_sliding_window :
  ∀ (st : State),
    (∀ ev, ∃ n added,
        logLines (step st ev).1 = drop n (logLines st) ++ added
        ∧ (length added ≤ 2)%nat)
    ∧ (∀ evs, ∃ n added,
        logLines (run_events st evs).1 = drop n (logLines st) ++ added
        ∧ (length added ≤ 2 * length evs)%nat).
Proof.
  intros st. split.
  - intros ev. apply window_step.
  - intros evs. revert st. induction evs as [|ev evs IH]; intros st.
    + apply window_same.
    + rewrite run_events_cons. cbn [length].
      replace (2 * S (length evs))%nat with (2 + 2 * length evs)%nat by lia.
      eapply window_trans; [apply window_step|apply IH].
Qed.

(** ** The progress display *)

Lemma progress_step st ev :
  progress (step st ev).1
  = match ev with Progress payload => payload | _ => progress st end.
Proof. destruct ev; handlers; reflexivity. Qed.

(** X6.  The progress the shell displays is the payload of the last progress
    event received, whatever happened since; with no such event it is what
    it was, and in particular pressing Start does not reset it. *)
Theorem progress_shows_latest_payload :
  ∀ (st : State) (evs : list Event),
    progress (run_events st evs).1 = default (progress st) (last_payload evs)
    ∧ progress (step st ClickStart).1 = progress st.
Proof.
  intros st evs. split; [|apply progress_step].
  revert st. induction evs as [|ev evs IH]; intros st; [reflexivity|].
  rewrite run_events_cons, IH, progress_step. cbn [last_payload].
  destruct (last_payload evs) as [p|]; [reflexivity|].
  by destruct ev.
Qed.

(** ** Calls to the backend *)

Lemma trim_twice s : trim (trim s) = trim s.
Proof.
  apply trim_fixed_iff.
  destruct (trim_split s) as (_ & _ & _ & _ & _ & H1 & H2). auto.
Qed.

Lemma handle_calls st ev call :
  In call (handle st ev).2 →
  (ev = ClickStart ∧ start_disabled st = false ∧ [call] = (start st).2)
  ∨ (ev = ClickCancel ∧ running st = true ∧ [call] = cancel.2).
Proof.
  destruct ev; unfold handle; try (cbn; tauto).
  - destruct (start_disabled st) eqn:E; [cbn; tauto|].
    intros [<-|[]]. left. auto.
  - unfold cancel_disabled. destruct (running st) eqn:E; [|cbn; tauto].
    intros [<-|[]]. right. auto.
  - destruct (running st); cbn; tauto.
  - destruct (running st); cbn; tauto.
Qed.

(** X7.  Along any sequence of events the shell calls the backend only in
    two ways: [start_move], from a state that is not running, with a
    non-empty source, a non-empty destination and a suffix text that is
    non-empty and has no white space at its ends; and [cancel_move], with no
    argument, from a state that is running. *)
Theorem backend_calls_well_formed :
  ∀ (st : State) (evs : list Event) (s : State) (call : InvokeCall),
    In (s, call) (run_events st evs).2 →
    (cmd call = lit "start_move"
     ∧ running s = false
     ∧ arg (lit "source") (args call) = Some (VStr (sourcePath s))
     ∧ sourcePath s ≠ []
     ∧ arg (lit "dest") (args call) = Some (VStr (destPath s))
     ∧ destPath s ≠ []
     ∧ (∃ t, arg (lit "suffixInput") (args call) = Some (VStr t)
             ∧ t ≠ [] ∧ starts_ws t = false ∧ ends_ws t = false)
     ∧ arg (lit "dryRun") (args call) = Some (VBool (dryRun s))
     ∧ arg (lit "verbose") (args call) = Some (VBool (verbose s)))
    ∨ (call = {| cmd := lit "cancel_move"; args := [] |} ∧ running s = true).
Proof.
  intros st evs s call Hin.
  destruct (run_events_calls _ _ _ _ Hin) as [ev Hev].
  destruct (handle_calls _ _ _ Hev) as [(-> & Hen & Hcall)|(-> & Hr & Hcall)].
  - left. injection Hcall as ->.
    destruct (start_disabled_false _ Hen) as (Hr & Hs & Hd & Ht).
    destruct (trim_split (suffixInput s)) as (_ & _ & _ & _ & _ & H1 & H2).
    repeat split; auto. exists (trim (suffixInput s)). auto.
  - right. injection Hcall as ->. auto.
Qed.

Lemma backend_calls_well_formed_witness :
  (∃ t, arg (lit "suffixInput") (args (start_call_of ready_state)) = Some (VStr t)
        ∧ t ≠ [])
  ∨ start_call_of ready_state = {| cmd := lit "cancel_move"; args := [] |}.
Proof.
  destruct (backend_calls_well_formed ready_state [ClickStart; ClickCancel]
              ready_state (start_call_of ready_state))
    as [(_ & _ & _ & _ & _ & _ & (t & Ht & Hne & _) & _)|[Hc _]].
  - left. reflexivity.
  - left. eauto.
  - right. exact Hc.
Defined.


(** ** The Start button and blank suffix text *)

Lemma trim_start_blank s :
  Forall (λ c, is_white_space c = true) s → trim_start s = [].
Proof.
  induction 1 as [|c s Hc _ IH]; [reflexivity|]. cbn [trim_start]. by rewrite Hc.
Qed.

Lemma trim_blank_iff s :
  trim s = [] ↔ Forall (λ c, is_white_space c = true) s.
Proof.
  split.
  - intros H. destruct (trim_split s) as (pre & post & Hs & Hpre & Hpost & _).
    rewrite H in Hs. rewrite Hs. apply Forall_app. auto.
  - intros H. unfold trim. by rewrite trim_start_blank.
Qed.

Lemma blank_or_visible s :
  Forall (λ c, is_white_space c = true) s
  ∨ Exists (λ c, is_white_space c = false) s.
Proof.
  induction s as [|c s [IH|IH]].
  - left. constructor.
  - destruct (is_white_space c) eqn:E.
    + left. by constructor.
    + right. by apply Exists_cons_hd.
  - right. by apply Exists_cons_tl.
Qed.

(** X8.  The Start button is enabled exactly when no run is marked running,
    both folders are chosen, and the suffix text holds at least one
    character that is not white space; a text of blanks, tabs and line
    breaks alone keeps it disabled. *)
Theorem start_enabled_iff_visible_suffix :
  ∀ (st : State),
    start_disabled st = false
    ↔ running st = false ∧ sourcePath st ≠ [] ∧ destPath st ≠ []
      ∧ Exists (λ c, is_white_space c = false) (suffixInput st).
Proof.
  intros st. split.
  - intros H. destruct (start_disabled_false st H) as (Hr & Hs & Hd & Ht).
    repeat split; auto.
    destruct (blank_or_visible (suffixInput st)) as [Hall|Hex]; [|exact Hex].
    exfalso. by apply Ht, trim_blank_iff.
  - intros (Hr & Hs & Hd & Hex).
    destruct (start_disabled st) eqn:E; [|reflexivity]. exfalso.
    apply start_disabled_iff in E as [E|[E|[E|E]]]; try congruence.
    apply trim_blank_iff in E. apply Exists_exists in Hex as (c & Hin & Hc).
    rewrite Forall_forall in E. specialize (E c Hin). congruence.
Qed.

(** ** A rejected start *)



(** ** The error banner *)

Lemma error_step st ev e :
  error (step st ev).1 = Some e → error st = Some e ∨ ev = StartRejected e.
Proof.
  destruct ev; handlers; intros Herr; try (left; exact Herr); try discriminate.
  right. congruence.
Qed.

(** X10.  The error banner only ever shows the rejection of a
    [start_move]: an error present after a sequence of events was there
    before or is the text of a rejection in the sequence (a failed cancel is
    logged, not shown); opening either folder dialog clears it, and so does
    a click on an enabled Start button. *)
Theorem error_banner_only_from_rejection :
  ∀ (st : State) (evs : list Event) (e : jsstring),
    (error (run_events st evs).1 = Some e →
     error st = Some e ∨ In (StartRejected e) evs)
    ∧ error (step st ClickPickSource).1 = None
    ∧ error (step st ClickPickDest).1 = None
    ∧ (start_disabled st = false → error (step st ClickStart).1 = None)
    ∧ (∀ x, error (step st (CancelRejected x)).1 = error st).
Proof.
  intros st evs e. split; [|split; [|split; [|split]]]; try reflexivity.
  - revert st. induction evs as [|ev evs IH]; intros st H; [by left|].
    rewrite run_events_cons in H.
    destruct (IH _ H) as [H'|H']; [|right; by right].
    destruct (error_step _ _ _ H') as [H''| ->]; [by left|right; by left].
  - intros Hen. unfold step, handle. by rewrite Hen.
Qed.

Lemma error_banner_only_from_rejection_witness :
  error ready_state = Some (lit "denied")
  ∨ In (StartRejected (lit "denied"))
       [ClickStart; StartRejected (lit "denied"); ClickCancel;
        CancelRejected (lit "no run")].
Proof.
  apply (proj1 (error_banner_only_from_rejection ready_state
                  [ClickStart; StartRejected (lit "denied"); ClickCancel;
                   CancelRejected (lit "no run")] (lit "denied"))).
  reflexivity.
Defined.

(** ** A run that never finishes *)

Lemma running_kept_step st ev :
  running st = true → clears_running ev = false → running (step st ev).1 = true.
Proof.
  intros Hr Hc.
  destruct ev; unfold clears_running in Hc; try discriminate;
    handlers; congruence.
Qed.

(** X11.  Without a progress event of phase "done" and without a rejection
    of [start_move], a shell that is marked running stays so, whatever else
    happens (a "cancelled" event and a cancel request included): the Start
    button stays disabled and the only call that can reach the backend is
    [cancel_move]. *)
Theorem running_persists_without_done_or_rejection :
  ∀ (st : State) (evs : list Event),
    running st = true →
    forallb (λ ev, negb (clears_running ev)) evs = true →
    running (run_events st evs).1 = true
    ∧ start_disabled (run_events st evs).1 = true
    ∧ ∀ s call, In (s, call) (run_events st evs).2 →
        call = {| cmd := lit "cancel_move"; args := [] |}.
Proof.
  intros st evs. revert st.
  induction evs as [|ev evs IH]; intros st Hr Hall.
  - cbn [run_events fst snd]. split; [exact Hr|].
    split; [unfold start_disabled; by rewrite Hr|]. intros s call [].
  - cbn [forallb] in Hall. apply andb_true_iff in Hall as [Hev Hall].
    apply negb_true_iff in Hev.
    pose proof (running_kept_step st ev Hr Hev) as Hr'.
    destruct (IH _ Hr' Hall) as (H1 & H2 & H3).
    rewrite run_events_cons. split; [exact H1|]. split; [exact H2|].
    intros s call Hin. cbn [run_events] in Hin.
    destruct (step st ev) as [st' calls] eqn:Est. cbn [fst] in *.
    destruct (run_events st' evs) as [st'' rest] eqn:Erest. cbn [snd] in *.
    apply in_app_iff in Hin as [Hin|Hin].
    + apply in_map_iff in Hin as (c & [= <- <-] & Hc).
      assert (Hh : In c (handle st ev).2).
      { unfold step in Est. injection Est as _ <-. exact Hc. }
      destruct (handle_calls _ _ _ Hh) as [(_ & Hen & _)|(_ & _ & Hcall)].
      * unfold start_disabled in Hen. rewrite Hr in Hen. discriminate.
      * by injection Hcall as ->.
    + apply (H3 s call Hin).
Qed.

Lemma running_persists_without_done_or_rejection_witness :
  running (run_events running_state
             [ClickCancel; CancelResolved; Progress cancelled_payload;
              EditSuffix (lit "7608"); ClickStart]).1 = true
  ∧ start_disabled (run_events running_state
                      [ClickCancel; CancelResolved; Progress cancelled_payload;
                       EditSuffix (lit "7608"); ClickStart]).1 = true.
Proof.
  destruct (running_persists_without_done_or_rejection running_state
              [ClickCancel; CancelResolved; Progress cancelled_payload;
               EditSuffix (lit "7608"); ClickStart])
    as (H1 & H2 & _); [reflexivity|reflexivity|].
  auto.
Defined.


(** ** The drag highlight *)

Lemma dragOver_step st ev :
  dragOver (step st ev).1
  = match ev with
    | DragOver => true
    | DragLeave | Drop _ => false
    | _ => dragOver st
    end.
Proof. destruct ev; handlers; reflexivity. Qed.

(** X12.  The drop zone is highlighted exactly when the last drag event was
    a drag-over: a drop or a drag-leave always ends the highlight, whether
    or not the drop carries a path, and no other event touches it. *)
Theorem drag_highlight_follows_last_drag_event :
  ∀ (st : State) (evs : list Event),
    dragOver (run_events st evs).1 = default (dragOver st) (last_drag evs).
Proof.
  intros st evs. revert st.
  induction evs as [|ev evs IH]; intros st; [reflexivity|].
  rewrite run_events_cons, IH, dragOver_step. cbn [last_drag].
  destruct (last_drag evs) as [b|]; [reflexivity|].
  by destruct ev.
Qed.

(** ** Folder changes and the log *)

Lemma last_addLog (line : jsstring) (l : list jsstring) :
  last (addLog_updater line l) = Some line.
Proof. rewrite addLog_updater_eq. apply last_snoc. Qed.

(** X13.  A folder never changes silently: whenever an event changes the
    source path, the last line of the log names the new path (as chosen in
    the dialog or as dropped), and whenever it changes the destination path
    the last line names the new destination. *)
Theorem folder_changes_are_logged :
  ∀ (st : State) (ev : Event),
    (sourcePath (step st ev).1 ≠ sourcePath st →
     last (logLines (step st ev).1)
     = Some (lit "Source: " ++ sourcePath (step st ev).1)
     ∨ last (logLines (step st ev).1)
       = Some (lit "Source (from drop): " ++ sourcePath (step st ev).1))
    ∧ (destPath (step st ev).1 ≠ destPath st →
       last (logLines (step st ev).1)
       = Some (lit "Destination: " ++ destPath (step st ev).1)).
Proof.
  intros st ev. split.
  - destruct ev; handlers; intros Hch; try congruence.
    + left. apply last_addLog.
    + right. apply last_addLog.
  - destruct ev; handlers; intros Hch; try congruence.
    apply last_addLog.
Qed.

Lemma folder_changes_are_logged_witness :
  (last (logLines (step ready_state (Drop (Some (lit "/camera")))).1)
   = Some (lit "Source: " ++ lit "/camera")
   ∨ last (logLines (step ready_state (Drop (Some (lit "/camera")))).1)
     = Some (lit "Source (from drop): " ++ lit "/camera"))
  ∧ last (logLines (step ready_state (PickedDest (Some (lit "/album")))).1)
    = Some (lit "Destination: " ++ lit "/album").
Proof.
  split.
  - apply (proj1 (folder_changes_are_logged ready_state (Drop (Some (lit "/camera"))))).
    discriminate.
  - apply (proj2 (folder_changes_are_logged ready_state (PickedDest (Some (lit "/album"))))).
    discriminate.
Defined.

End ShellCoverage.
